(** * duplicacy-util: a shallow embedding of [duplicacy-util.go]

    The development follows the Go source function by function:
    [logFMessage], [logError], [logMessage], [obtainLock], [performBackup]
    and [rotateLogFiles].  Go strings are byte sequences and are modelled by
    [string]; Go [error] values are modelled by their message; the
    process-wide variables of the program are split into the ones that never
    change after start-up ([Globals]) and the mutable ones, which live in the
    [World] together with the file system, the advisory locks, the clock and
    the console. *)

From Stdlib Require Import ZArith String Ascii List Lia Bool.
From stdpp Require Import base tactics option list gmap strings pretty.

Set Default Proof Using "Type".

(** ** Strings *)

Module strings.

(** [strings.Split(s, sep)] for a separator of one byte, which is the only
    way the program calls it ([strings.Split(keep, " ")]): the substrings
    between the separators, one more than there are separators. *)
Fixpoint Split (s : string) (sep : ascii) : list string :=
  match s with
  | EmptyString => [EmptyString]
  | String a s' =>
      if Ascii.eqb a sep then EmptyString :: Split s' sep
      else match Split s' sep with
           | t :: ts => String a t :: ts
           | [] => [String a EmptyString]
           end
  end.

(** [strings.Join(elems, sep)], the inverse used to state what [Split]
    returns. *)
Fixpoint Join (elems : list string) (sep : string) : string :=
  match elems with
  | [] => EmptyString
  | [t] => t
  | t :: ts => t +:+ sep +:+ Join ts sep
  end.

Fixpoint contains (c : ascii) (s : string) : bool :=
  match s with
  | EmptyString => false
  | String a s' => Ascii.eqb a c || contains c s'
  end.

Fixpoint count (c : ascii) (s : string) : nat :=
  match s with
  | EmptyString => 0
  | String a s' => (if Ascii.eqb a c then 1 else 0) + count c s'
  end.

(** The first [n] bytes of [s]. *)
Fixpoint take (n : nat) (s : string) : string :=
  match n, s with
  | S n', String a s' => String a (take n' s')
  | _, _ => EmptyString
  end.

End strings.

Definition space : ascii := " "%char.
Definition tab : ascii := "009"%char.
Definition nl : string := String "010"%char EmptyString.

(** Tokenization on whitespace, written from the words of the specification
    (runs of white space separate the tokens, and no token is empty); the
    program itself does not contain this function. *)
Definition is_white (c : ascii) : bool :=
  Ascii.eqb c " "%char || Ascii.eqb c "009"%char || Ascii.eqb c "010"%char
  || Ascii.eqb c "011"%char || Ascii.eqb c "012"%char || Ascii.eqb c "013"%char.

Fixpoint whitespace_tokens_go (cur : string) (s : string) : list string :=
  let flush := match cur with EmptyString => [] | _ => [cur] end in
  match s with
  | EmptyString => flush
  | String a s' =>
      if is_white a then flush ++ whitespace_tokens_go EmptyString s'
      else whitespace_tokens_go (cur +:+ String a EmptyString) s'
  end.

Definition whitespace_tokens (s : string) : list string :=
  whitespace_tokens_go EmptyString s.

(** ** Time *)

(** A reading of [time.Now()]: the calendar date as [Format("01-02-2006")]
    prints it, and the time of day in seconds since midnight. *)
Record Time := { dateMDY : string; secOfDay : nat }.

Definition digit (n : nat) : ascii := ascii_of_nat (48 + n mod 10).
Definition pad2 (n : nat) : string :=
  String (digit (n / 10)) (String (digit n) EmptyString).

Definition hour (t : Time) : nat := (secOfDay t / 3600) mod 24.
Definition minute (t : Time) : nat := (secOfDay t / 60) mod 60.
Definition second (t : Time) : nat := secOfDay t mod 60.

(** [t.Format("15:04:05")] *)
Definition formatHMS (t : Time) : string :=
  pad2 (hour t) +:+ ":" +:+ pad2 (minute t) +:+ ":" +:+ pad2 (second t).

(** [t.Format("01-02-2006 15:04:05")] *)
Definition formatDateTime (t : Time) : string :=
  dateMDY t +:+ " " +:+ formatHMS t.

Definition is_digit (c : ascii) : bool :=
  let n := nat_of_ascii c in (48 <=? n) && (n <=? 57).

(** The shape [HH:MM:SS]: eight bytes, digits around two colons. *)
Definition is_HMS (s : string) : bool :=
  match s with
  | String h1 (String h2 (String c1 (String m1 (String m2
      (String c2 (String s1 (String s2 EmptyString))))))) =>
      is_digit h1 && is_digit h2 && Ascii.eqb c1 ":"%char
      && is_digit m1 && is_digit m2 && Ascii.eqb c2 ":"%char
      && is_digit s1 && is_digit s2
  | _ => false
  end.

(** ** The program's data *)

Definition error := string.

(** One call of the external engine. *)
Record Invocation := { prog : string; args : list string; dir : string }.

(** The part of [ConfigFile] the program reads: each list holds one
    [map[string]string] per configured operation. *)
Record ConfigFile := {
  backupInfo : list (gmap string string);
  copyInfo : list (gmap string string);
  pruneInfo : list (gmap string string);
  checkInfo : list (gmap string string);
  repoDir : string
}.

(** The package-level variables that are fixed once [main] reaches
    [obtainLock]. *)
Record Globals := {
  cmdConfig : string;
  cmdBackup : bool;
  cmdCheck : bool;
  cmdPrune : bool;
  debugFlag : bool;
  globalLockDir : string;
  globalLogDir : string;
  globalLogFileCount : Z;
  duplicacyPath : string;
  configFile : ConfigFile
}.

(** How [io.Copy(archiver, reader)] fails: reading the source fails when
    [n] of its bytes have been handed to the archiver, or a write of the
    archiver to its file fails when [k] bytes of the stream have reached the
    file. *)
Inductive CopyFailure :=
| ReadFailed (n : nat) (err : error)
| WriteFailed (k : nat) (err : error).


(** What the program depends on and does not define: library functions and
    the behaviour of the operating system and of the external engine. *)
Record Env := {
  (** [filepath.Join] of two elements *)
  pathJoin : string → string → string;
  (** the reading of the n-th call of [time.Now] *)
  clock : nat → Time;
  (** [end.Sub(start)] as [fmt.Sprint] prints it *)
  durationString : Time → Time → string;
  (** the gzip stream with header name [n] for the payload [b] *)
  gzipBytes : string → string → string;
  (** the external engine: from the calls made so far and the present call,
      the lines it prints and how it terminates *)
  external : list Invocation → Invocation → list string * option error;
  (** failures of opening the lock file or of the [flock] call *)
  lockFault : string → option error;
  (** an error of [os.Stat] for which [os.IsNotExist] is false, such as a
      directory on the way that cannot be searched *)
  statFault : string → option error;
  (** failures of [os.Open], of [os.Create] and of [io.Copy] from a file *)
  openFault : string → option error;
  createFault : string → option error;
  copyFault : string → option CopyFailure;
  (** a failure of [Close] on a gzip writer, by its file: the write of what
      is left of the stream fails when [k] bytes of the stream have reached
      the file *)
  closeFault : string → option (nat * error)
}.

Inductive Writer := Stdout | Stderr.

Inductive Event :=
| EvStdout (line : string)
| EvStderr (line : string)
| EvExec (inv : Invocation).

(** An open [gzip.Writer]: its field [Name], the payload it has accepted,
    and whether a write to its file has failed. *)
Record Archiver := { gzName : string; accepted : string; broken : bool }.

(** The mutable state: files, the lock files that some process holds locked,
    the number of clock readings so far, the open gzip writers (keyed by
    their file), the console output and external calls in the order they
    happen, and the variable [mailBody]. *)
Record World := {
  fs : gmap string string;
  held : gset string;
  ticks : nat;
  gzbuf : gmap string Archiver;
  events : list Event;
  mailBody : list string
}.

Definition set_fs (f : gmap string string → gmap string string) (w : World) : World :=
  {| fs := f (fs w); held := held w; ticks := ticks w; gzbuf := gzbuf w;
     events := events w; mailBody := mailBody w |}.
Definition set_held (f : gset string → gset string) (w : World) : World :=
  {| fs := fs w; held := f (held w); ticks := ticks w; gzbuf := gzbuf w;
     events := events w; mailBody := mailBody w |}.
Definition set_ticks (f : nat → nat) (w : World) : World :=
  {| fs := fs w; held := held w; ticks := f (ticks w); gzbuf := gzbuf w;
     events := events w; mailBody := mailBody w |}.
Definition set_gzbuf (f : gmap string Archiver → gmap string Archiver) (w : World) : World :=
  {| fs := fs w; held := held w; ticks := ticks w; gzbuf := f (gzbuf w);
     events := events w; mailBody := mailBody w |}.
Definition set_events (f : list Event → list Event) (w : World) : World :=
  {| fs := fs w; held := held w; ticks := ticks w; gzbuf := gzbuf w;
     events := f (events w); mailBody := mailBody w |}.
Definition set_mailBody (f : list string → list string) (w : World) : World :=
  {| fs := fs w; held := held w; ticks := ticks w; gzbuf := gzbuf w;
     events := events w; mailBody := f (mailBody w) |}.

(** The external calls among the events, oldest first. *)
Fixpoint invocations (evs : list Event) : list Invocation :=
  match evs with
  | [] => []
  | EvExec inv :: evs' => inv :: invocations evs'
  | _ :: evs' => invocations evs'
  end.

Definition invs (w : World) : list Invocation := invocations (events w).

(** ** The monad: state, and run-time panics *)

Inductive Res (A : Type) :=
| Val (a : A)
| Panic (msg : string).
Arguments Val {A} a.
Arguments Panic {A} msg.

Definition M (A : Type) : Type := World → Res A * World.

Definition ret {A} (a : A) : M A := λ w, (Val a, w).

Definition bind {A B} (c : M A) (k : A → M B) : M B :=
  λ w, match c w with
       | (Val a, w') => k a w'
       | (Panic msg, w') => (Panic msg, w')
       end.

Declare Scope go_scope.
Delimit Scope go_scope with go.
Notation "x <- c ;; k" := (bind c (λ x, k))
  (at level 100, c at next level, right associativity) : go_scope.
Notation "c ;;; k" := (bind c (λ _, k))
  (at level 100, right associativity) : go_scope.
Local Open Scope go_scope.

Definition panic {A} (msg : string) : M A := λ w, (Panic msg, w).

Definition modify (f : World → World) : M unit := λ w, (Val tt, f w).

Definition gets {A} (f : World → A) : M A := λ w, (Val (f w), w).

(** [defer cleanup] before [body]: the clean-up runs when [body] is left, by
    a return or by a panic, and the panic goes on after it. *)
Definition defer {A} (cleanup : M unit) (body : M A) : M A :=
  λ w, match body w with
       | (r, w') => (r, snd (cleanup w'))
       end.

(** [xs[i]] on a slice: a run-time panic outside the range. *)
Definition index {A} (xs : list A) (i : nat) : M A :=
  match xs !! i with
  | Some x => ret x
  | None => panic "index out of range"
  end.

(** [m[k]] on a [map[string]string]: the empty string for a missing key. *)
Definition mapGet (m : gmap string string) (k : string) : string :=
  default EmptyString (m !! k).

(** A loop body returns [Some err] for [return err] and [None] to go on. *)
Fixpoint forEach {A} (xs : list A) (body : A → M (option error)) : M (option error) :=
  match xs with
  | [] => ret None
  | x :: rest =>
      r <- body x ;;
      match r with
      | Some err => ret (Some err)
      | None => forEach rest body
      end
  end.

(** [for i := range xs] *)
Definition forRange {A} (xs : list A) (body : nat → M (option error)) : M (option error) :=
  forEach (seq 0 (length xs)) body.

Fixpoint forLines (ls : list string) (f : string → M unit) : M unit :=
  match ls with
  | [] => ret tt
  | l :: rest => f l ;;; forLines rest f
  end.

(** [fmt.Sprint] of a [[]string]: the elements between brackets. *)
Definition sprintSlice (xs : list string) : string :=
  "[" +:+ strings.Join xs " " +:+ "]".

(** Go's [int] on the 64-bit platforms: results wrap around. *)
Definition wrap64 (z : Z) : Z := ((z + 2 ^ 63) mod 2 ^ 64 - 2 ^ 63)%Z.

(** [logFileRoot + "." + strconv.Itoa(i) + ".gz"] *)
Definition genPath (root : string) (i : Z) : string :=
  root +:+ "." +:+ pretty i +:+ ".gz".

Definition hashes : string :=
  "######################################################################".

(** ** The program *)

Section Program.

Variable E : Env.
Variable G : Globals.

(** *** Operating system and libraries *)

Definition timeNow : M Time :=
  λ w, (Val (clock E (ticks w)), set_ticks S w).

(** [fmt.Fprintln(w, s)] on one of the two consoles *)
Definition Fprintln (w : Writer) (s : string) : M unit :=
  modify (set_events (λ evs,
    evs ++ [match w with Stdout => EvStdout s | Stderr => EvStderr s end])).

(** [logger.Println(s)] for a logger made by [log.New(file, "", log.Ltime)]:
    the time of day, the message and a new line, appended to the file. *)
Definition loggerPrintln (file : string) (s : string) : M unit :=
  t <- timeNow ;;
  modify (set_fs (λ m,
    <[file := default EmptyString (m !! file) +:+ formatHMS t +:+ " " +:+ s +:+ nl]> m)).

(** [_, err := os.Stat(path); os.IsNotExist(err)]: true when the file is
    missing and [os.Stat] says so; false when the file is there, and when
    [os.Stat] fails with another error. *)
Definition osStatNotExist (path : string) : M bool :=
  gets (λ w, match statFault E path with
             | Some _ => false
             | None => bool_decide (fs w !! path = None)
             end).

(** [os.Rename]: fails, and changes nothing, when the source is missing;
    replaces the destination otherwise.  The program drops the result. *)
Definition osRename (old new : string) : M unit :=
  modify (set_fs (λ m,
    match m !! old with
    | Some c => <[new := c]> (delete old m)
    | None => m
    end)).

Definition osRemove (path : string) : M unit :=
  modify (set_fs (delete path)).

Definition osOpen (path : string) : M (string + error) :=
  λ w, match openFault E path with
       | Some err => (Val (inr err), w)
       | None =>
           match fs w !! path with
           | Some _ => (Val (inl path), w)
           | None => (Val (inr ("open " +:+ path +:+ ": no such file or directory")), w)
           end
       end.

(** [os.Create]: the file is created, or truncated when it exists. *)
Definition osCreate (path : string) : M (string + error) :=
  λ w, match createFault E path with
       | Some err => (Val (inr err), w)
       | None => (Val (inl path), set_fs (insert path EmptyString) w)
       end.

(** [f.Close()] on a file: nothing the model keeps changes. *)
Definition fileClose (f : string) : M unit := ret tt.

(** The gzip writer on the file [writer]. *)
Definition archiverOf (writer : string) (w : World) : Archiver :=
  default {| gzName := EmptyString; accepted := EmptyString; broken := false |}
          (gzbuf w !! writer).

(** [gzip.NewWriter(writer)] *)
Definition gzipNewWriter (writer : string) : M unit :=
  modify (set_gzbuf (insert writer
    {| gzName := EmptyString; accepted := EmptyString; broken := false |})).

(** [archiver.Name = name] *)
Definition archiverSetName (writer name : string) : M unit :=
  a <- gets (archiverOf writer) ;;
  modify (set_gzbuf (insert writer
    {| gzName := name; accepted := accepted a; broken := broken a |})).

(** [io.Copy(archiver, reader)]: the archiver accepts the whole file; or
    reading fails and it has accepted the bytes before the failure; or one
    of its writes fails, which leaves the file with the part of the stream
    written so far and the archiver unusable. *)
Definition ioCopy (writer reader : string) : M (option error) :=
  data <- gets (λ w, default EmptyString (fs w !! reader)) ;;
  a <- gets (archiverOf writer) ;;
  match copyFault E reader with
  | Some (ReadFailed n err) =>
      modify (set_gzbuf (insert writer
        {| gzName := gzName a; accepted := strings.take n data; broken := false |})) ;;;
      ret (Some err)
  | Some (WriteFailed k err) =>
      modify (set_fs (insert writer
        (strings.take k (gzipBytes E (gzName a) data)))) ;;;
      modify (set_gzbuf (insert writer
        {| gzName := gzName a; accepted := data; broken := true |})) ;;;
      ret (Some err)
  | None =>
      modify (set_gzbuf (insert writer
        {| gzName := gzName a; accepted := data; broken := false |})) ;;;
      ret None
  end.

(** What [Close] leaves in the file [writer] of the stream [stream]: all of
    it, or its first [k] bytes when the write fails there. *)
Definition flushed (writer stream : string) : string :=
  match closeFault E writer with
  | Some (k, _) => strings.take k stream
  | None => stream
  end.

(** [archiver.Close()], with its result dropped as the program drops it:
    after a failed write it does nothing; otherwise the stream for what was
    accepted goes to the file, as far as the write succeeds. *)
Definition archiverClose (writer : string) : M unit :=
  a <- gets (archiverOf writer) ;;
  (if broken a then ret tt
   else modify (set_fs (insert writer
          (flushed writer (gzipBytes E (gzName a) (accepted a)))))) ;;;
  modify (set_gzbuf (delete writer)).

(** [fileLock.TryLock()]: the lock file is opened (and created when it is
    missing), then locked unless some process holds the lock. *)
Definition TryLock (lockfile : string) : M (bool * option error) :=
  λ w, match lockFault E lockfile with
       | Some err => (Val (false, Some err), w)
       | None =>
           let w1 := set_fs (λ m, match m !! lockfile with
                                  | Some _ => m
                                  | None => <[lockfile := EmptyString]> m
                                  end) w in
           if bool_decide (lockfile ∈ held w)
           then (Val (false, None), w1)
           else (Val (true, None), set_held (λ h, {[lockfile]} ∪ h) w1)
       end.

Definition Unlock (lockfile : string) : M unit :=
  modify (set_held (λ h, h ∖ {[lockfile]})).

(** Modelled from the spec: [Executor], which is defined in another file of
    the repository.  It runs the external program in the given directory,
    hands every line the program prints to the callback, and returns an
    error when the program cannot be started or ends with a status other
    than 0. *)
Definition Executor (path : string) (cmdArgs : list string) (cwd : string)
    (callback : string → M unit) : M (option error) :=
  let inv := {| prog := path; args := cmdArgs; dir := cwd |} in
  h <- gets invs ;;
  modify (set_events (λ evs, evs ++ [EvExec inv])) ;;;
  forLines (fst (external E h inv)) callback ;;;
  ret (snd (external E h inv)).

(** *** [logFMessage], [logError], [logMessage] *)

Definition logFMessage (w : Writer) (logger : option string) (message : string) : M unit :=
  match logger with
  | Some l => loggerPrintln l message
  | None => ret tt
  end ;;;
  now <- timeNow ;;
  let text := formatHMS now +:+ " " +:+ message in
  modify (set_mailBody (λ b, b ++ [text])) ;;;
  match w with
  | Stdout => Fprintln w text
  | Stderr => Fprintln w message
  end.

Definition logError (logger : option string) (message : string) : M unit :=
  logFMessage Stderr logger message.

Definition logMessage (logger : option string) (message : string) : M unit :=
  logFMessage Stdout logger message.

(** *** [rotateLogFiles] *)

(** [for i := globalLogFileCount - 2; i >= 1; i--], by the value of [i]. *)
Fixpoint renameLoop (logFileRoot : string) (i : nat) : M unit :=
  match i with
  | O => ret tt
  | S i' =>
      osRename (genPath logFileRoot (Z.of_nat i))
               (genPath logFileRoot (wrap64 (Z.of_nat i + 1))) ;;;
      renameLoop logFileRoot i'
  end.

Definition logFileRoot : string :=
  pathJoin E (globalLogDir G) (cmdConfig G) +:+ ".log".

Definition rotateLogFiles : M (option error) :=
  renameLoop logFileRoot (Z.to_nat (wrap64 (globalLogFileCount G - 2))) ;;;
  missing <- osStatNotExist logFileRoot ;;
  if missing then ret None else
  rd <- osOpen logFileRoot ;;
  match rd with
  | inr err => logError None ("Error: " +:+ err) ;;; ret (Some err)
  | inl reader =>
      cr <- osCreate (logFileRoot +:+ ".1.gz") ;;
      match cr with
      | inr err =>
          fileClose reader ;;;
          logError None ("Error: " +:+ err) ;;; ret (Some err)
      | inl writer =>
          defer (fileClose writer) (
            gzipNewWriter writer ;;;
            archiverSetName writer (logFileRoot +:+ ".1.gz") ;;;
            defer (archiverClose writer) (
              r <- ioCopy writer reader ;;
              match r with
              | Some err => logError None ("Error: " +:+ err) ;;; ret (Some err)
              | None => ret None
              end))
      end
  end.

(** *** [performBackup] *)

(** [if err != nil { return err }] around a step *)
Definition orReturn (c : M (option error)) (k : M (option error)) : M (option error) :=
  r <- c ;;
  match r with
  | Some err => ret (Some err)
  | None => k
  end.

Definition backupArgs (b : gmap string string) : list string :=
  ["backup"; "-storage"; mapGet b "name"; "-threads"; mapGet b "threads"; "-stats"].

Definition copyArgs (c : gmap string string) : list string :=
  ["copy"; "-threads"; mapGet c "threads"; "-from"; mapGet c "from"; "-to"; mapGet c "to"].

Definition pruneArgs (p : gmap string string) : list string :=
  ["prune"; "-all"; "-storage"; mapGet p "storage"]
  ++ strings.Split (mapGet p "keep") space.

Definition checkArgs (c : gmap string string) : list string :=
  ["check"; "-storage"; mapGet c "storage"]
  ++ (if String.eqb (mapGet c "all") "true" then ["-all"] else []).

(** The three statements that end the body of each of the four loops: the
    debug line, the call of [Executor] and the test of its result. *)
Definition runCommand (logger : string) (cmdArgs : list string) : M (option error) :=
  (if debugFlag G
   then logMessage (Some logger)
          ("Executing: " +:+ duplicacyPath G +:+ sprintSlice cmdArgs)
   else ret tt) ;;;
  err <- Executor (duplicacyPath G) cmdArgs (repoDir (configFile G))
           (loggerPrintln logger) ;;
  match err with
  | Some e =>
      logError (Some logger) ("Error executing command: " +:+ e) ;;;
      ret (Some e)
  | None => ret None
  end.

Definition backupStep (logger : string) (i : nat) : M (option error) :=
  loggerPrintln logger hashes ;;;
  b <- index (backupInfo (configFile G)) i ;;
  let cmdArgs := backupArgs b in
  logMessage (Some logger)
    ("Backing up to storage " +:+ mapGet b "name" +:+ " with "
     +:+ mapGet b "threads" +:+ " threads") ;;;
  runCommand logger cmdArgs.

Definition copyStep (logger : string) (i : nat) : M (option error) :=
  loggerPrintln logger hashes ;;;
  c <- index (copyInfo (configFile G)) i ;;
  let cmdArgs := copyArgs c in
  logMessage (Some logger)
    ("Copying from storage " +:+ mapGet c "from" +:+ " to storage "
     +:+ mapGet c "to" +:+ " with " +:+ mapGet c "threads" +:+ " threads") ;;;
  runCommand logger cmdArgs.

Definition pruneStep (logger : string) (i : nat) : M (option error) :=
  loggerPrintln logger hashes ;;;
  p <- index (pruneInfo (configFile G)) i ;;
  let cmdArgs := pruneArgs p in
  logMessage (Some logger) ("Pruning storage " +:+ mapGet p "storage") ;;;
  runCommand logger cmdArgs.

(** The narration reads [pruneInfo[i]], as the source does. *)
Definition checkStep (logger : string) (i : nat) : M (option error) :=
  loggerPrintln logger hashes ;;;
  c <- index (checkInfo (configFile G)) i ;;
  let cmdArgs := checkArgs c in
  p <- index (pruneInfo (configFile G)) i ;;
  logMessage (Some logger) ("Checking storage " +:+ mapGet p "storage") ;;;
  runCommand logger cmdArgs.

(** [performBackup] from the creation of the logger to its end. *)
Definition runPhases (logger : string) : M (option error) :=
  startTime <- timeNow ;;
  now <- timeNow ;;
  logMessage (Some logger) ("Beginning backup on " +:+ formatDateTime now) ;;;
  orReturn
    (if cmdBackup G then
       orReturn (forRange (backupInfo (configFile G)) (backupStep logger))
         (if bool_decide (length (copyInfo (configFile G)) ≠ 0)
          then forRange (copyInfo (configFile G)) (copyStep logger)
          else ret None)
     else ret None)
  (orReturn
    (if cmdPrune G
     then forRange (pruneInfo (configFile G)) (pruneStep logger)
     else ret None)
  (orReturn
    (if cmdCheck G
     then forRange (checkInfo (configFile G)) (checkStep logger)
     else ret None)
  (endTime <- timeNow ;;
   loggerPrintln logger hashes ;;;
   logMessage (Some logger)
     ("Operations completed in " +:+ durationString E startTime endTime) ;;;
   ret None))).

Definition logFilePath : string :=
  pathJoin E (globalLogDir G) (cmdConfig G +:+ ".log").

Definition performBackup : M (option error) :=
  now <- timeNow ;;
  Fprintln Stdout (formatHMS now +:+ " " +:+ "Rotating log files") ;;;
  orReturn rotateLogFiles (
    cr <- osCreate logFilePath ;;
    match cr with
    | inr err => logError None ("Error: " +:+ err) ;;; ret (Some err)
    | inl file => runPhases file
    end).

(** *** [obtainLock] and the end of [main] *)

Definition lockfile : string :=
  pathJoin E (globalLockDir G) (cmdConfig G +:+ ".lock").

Definition obtainLock : M Z :=
  r <- TryLock lockfile ;;
  match r with
  | (_, Some err) =>
      logError None ("Error: " +:+ err) ;;; ret 201%Z
  | (false, None) =>
      logError None
        ("Error: " +:+ "unable to obtain lock using lockfile: " +:+ lockfile) ;;;
      ret 200%Z
  | (true, None) =>
      defer (osRemove lockfile) (
        defer (Unlock lockfile) (
          err <- performBackup ;;
          match err with
          | Some _ => ret 500%Z
          | None => ret 0%Z
          end))
  end.

(** The end of [main], from the test that some operation was asked for:
    the value is the argument of [os.Exit]. *)
Definition main : M Z :=
  if negb (cmdBackup G) && negb (cmdPrune G) && negb (cmdCheck G) then
    logError None "Error: No operations to perform (specify -b, -p, -c, or -a)" ;;;
    ret 1%Z
  else obtainLock.

End Program.

(** ** The behaviour the specification describes *)

Section Described.

Variable E : Env.
Variable G : Globals.

(** The call of the engine for an argument vector. *)
Definition invocation (cmdArgs : list string) : Invocation :=
  {| prog := duplicacyPath G; args := cmdArgs; dir := repoDir (configFile G) |}.

(** The argument vectors of the selected phases in the order backup, copy,
    prune, check, each phase in the order of its list.  Copy belongs to the
    backup phase. *)
Definition plan : list (list string) :=
  (if cmdBackup G
   then map backupArgs (backupInfo (configFile G))
        ++ map copyArgs (copyInfo (configFile G))
   else [])
  ++ (if cmdPrune G then map pruneArgs (pruneInfo (configFile G)) else [])
  ++ (if cmdCheck G then map checkArgs (checkInfo (configFile G)) else []).

(** Fail-fast execution as the specification words it: the commands are
    called in order, and the first one that fails ends the run with its
    error.  The value is the list of all calls made and the outcome. *)
Fixpoint failFast (h : list Invocation) (cmds : list (list string))
    : list Invocation * option error :=
  match cmds with
  | [] => (h, None)
  | c :: rest =>
      match snd (external E h (invocation c)) with
      | Some e => (h ++ [invocation c], Some e)
      | None => failFast (h ++ [invocation c]) rest
      end
  end.

(** The commands the check loop can reach: its narration reads
    [pruneInfo[i]], so it stops where that list ends. *)
Definition reachable : list (list string) :=
  (if cmdBackup G
   then map backupArgs (backupInfo (configFile G))
        ++ map copyArgs (copyInfo (configFile G))
   else [])
  ++ (if cmdPrune G then map pruneArgs (pruneInfo (configFile G)) else [])
  ++ (if cmdCheck G
      then take (length (pruneInfo (configFile G)))
             (map checkArgs (checkInfo (configFile G)))
      else []).

(** Whether the check loop reaches an index that [pruneInfo] lacks. *)
Definition checkOverrun : bool :=
  cmdCheck G
  && (length (pruneInfo (configFile G)) <? length (checkInfo (configFile G))).

(** No call of [os.Stat], [os.Open], [os.Create] or [io.Copy] fails, nor
    [Close] on a gzip writer; [os.Stat] may report a missing file. *)
Definition no_faults : Prop :=
  ∀ p, statFault E p = None ∧ openFault E p = None ∧ createFault E p = None
       ∧ copyFault E p = None ∧ closeFault E p = None.

(** [N - 2] does not overflow Go's [int]. *)
Definition depth_in_range : Prop :=
  (2 - 2 ^ 63 ≤ globalLogFileCount G < 2 ^ 63)%Z.

End Described.

(** The file of generation [i] as the specification names it:
    [logRoot.i.gz], with [i] in decimal. *)
Definition generation (root : string) (i : Z) : string :=
  root +:+ "." +:+ pretty i +:+ ".gz".

(** Rotation of the compressed generations as the specification words it:
    generation [i] becomes generation [i+1] when it exists and is skipped
    when it is missing, for [i] from [N-2] down to 1. *)

Definition shiftOne (root : string) (m : gmap string string) (i : nat)
    : gmap string string :=
  match m !! generation root (Z.of_nat i) with
  | Some c =>
      <[generation root (Z.of_nat i + 1) := c]> (delete (generation root (Z.of_nat i)) m)
  | None => m
  end.

Definition shiftGenerations (root : string) (N : Z) (m : gmap string string)
    : gmap string string :=
  fold_left (shiftOne root) (rev (seq 1 (Z.to_nat (N - 2)))) m.

(** ** A concrete installation, for examples *)

Module Demo.

(** A stand-in for gzip and its inverse: a header in front of the payload. *)
Definition gz (name payload : string) : string := "GZ" +:+ payload.
Definition gunzip (z : string) : option string :=
  match z with
  | String "G" (String "Z" payload) => Some payload
  | _ => None
  end.

(** The engine succeeds, except that its [failAt]-th call (from 0) fails. *)
Definition env (failAt : option nat) : Env := {|
  pathJoin := λ a b, a +:+ "/" +:+ b;
  clock := λ n, {| dateMDY := "01-02-2018"; secOfDay := 13 * 3600 + 61 + n |};
  durationString := λ _ _, "1s";
  gzipBytes := gz;
  external := λ h _,
    (["ok"], if bool_decide (Some (length h) = failAt)
             then Some "exit status 1" else None);
  lockFault := λ _, None;
  statFault := λ _, None;
  openFault := λ _, None;
  createFault := λ _, None;
  copyFault := λ _, None;
  closeFault := λ _, None
|}.

(** The same, with a lock file that cannot be opened. *)
Definition envLockFault : Env := {|
  pathJoin := pathJoin (env None);
  clock := clock (env None);
  durationString := durationString (env None);
  gzipBytes := gz;
  external := external (env None);
  lockFault := λ _, Some "permission denied";
  statFault := λ _, None;
  openFault := λ _, None;
  createFault := λ _, None;
  copyFault := λ _, None;
  closeFault := λ _, None
|}.

(** The same, with [os.Open], [os.Create] or [io.Copy] failing. *)
Definition envFault (o c : option error) (k : option CopyFailure) : Env := {|
  pathJoin := pathJoin (env None);
  clock := clock (env None);
  durationString := durationString (env None);
  gzipBytes := gz;
  external := external (env None);
  lockFault := λ _, None;
  statFault := λ _, None;
  openFault := λ _, o;
  createFault := λ _, c;
  copyFault := λ _, k;
  closeFault := λ _, None
|}.


(** The same, with a disk that is full when the gzip writer is closed: the
    first [k] bytes of the stream are in the file. *)
Definition envCloseFault (k : nat) : Env := {|
  pathJoin := pathJoin (env None);
  clock := clock (env None);
  durationString := durationString (env None);
  gzipBytes := gz;
  external := external (env None);
  lockFault := λ _, None;
  statFault := λ _, None;
  openFault := λ _, None;
  createFault := λ _, None;
  copyFault := λ _, None;
  closeFault := λ _, Some (k, "write /log/job.log.1.gz: no space left on device")
|}.

Definition storage (n : string) : gmap string string :=
  {[ "name" := n; "threads" := "4" ]}.

Definition globals (b p c : bool) (cfg : ConfigFile) : Globals := {|
  cmdConfig := "job";
  cmdBackup := b; cmdCheck := c; cmdPrune := p; debugFlag := false;
  globalLockDir := "/lock"; globalLogDir := "/log";
  globalLogFileCount := 5;
  duplicacyPath := "/bin/duplicacy";
  configFile := cfg
|}.

(** Three backup storages, one prune and one check operation. *)
Definition threeBackups : ConfigFile := {|
  backupInfo := [storage "A"; storage "B"; storage "C"];
  copyInfo := [];
  pruneInfo := [ {[ "storage" := "A"; "keep" := "7d 30:7" ]} ];
  checkInfo := [ {[ "storage" := "A"; "all" := "true" ]} ];
  repoDir := "/repo"
|}.

(** One prune operation on storage A and one check operation on storage B. *)
Definition checkOther : ConfigFile := {|
  backupInfo := [];
  copyInfo := [];
  pruneInfo := [ {[ "storage" := "A"; "keep" := "7d" ]} ];
  checkInfo := [ {[ "storage" := "B" ]} ];
  repoDir := "/repo"
|}.

(** A check operation and no prune operation. *)
Definition checkOnly : ConfigFile := {|
  backupInfo := [];
  copyInfo := [];
  pruneInfo := [];
  checkInfo := [ {[ "storage" := "B" ]} ];
  repoDir := "/repo"
|}.

(** A log of the previous run and two older generations; no lock held. *)
Definition world : World := {|
  fs := {[ "/log/job.log" := "old";
           "/log/job.log.1.gz" := "GZg1";
           "/log/job.log.3.gz" := "GZg3" ]};
  held := ∅; ticks := 0; gzbuf := ∅; events := []; mailBody := []
|}.

(** The same while another process holds the lock of the job. *)
Definition worldLocked : World := set_held (λ _, {[ "/lock/job.lock" ]}) world.


Definition tabbed : string := "7d" +:+ String tab "30:7".

End Demo.
(** The world in which [performBackup] calls [rotateLogFiles]: the clock has
    been read once and the line announcing the rotation is on the console. *)
Definition afterBanner (E : Env) (w : World) : World :=
  set_events
    (λ evs, evs ++ [EvStdout (formatHMS (clock E (ticks w)) +:+ " " +:+ "Rotating log files")])
    (set_ticks S w).

(** The world in which [obtainLock] goes on after [TryLock] has taken the
    lock: the lock file exists and is held. *)
Definition afterTryLock (E : Env) (G : Globals) (w : World) : World :=
  set_held (λ h, {[lockfile E G]} ∪ h)
    (set_fs (λ m, match m !! lockfile E G with
                  | Some _ => m
                  | None => <[lockfile E G := EmptyString]> m
                  end) w).

(** ** Observing a computation *)

(** A computation that returns and calls no external program. *)
Definition quiet {A} (c : M A) : Prop :=
  ∀ w, ∃ a w', c w = (Val a, w') ∧ invs w' = invs w.

(** A computation whose external calls and result are those of the fail-fast
    execution of [cmds]; with [crash], it panics once every one of these
    commands has succeeded. *)
Definition behaves (E : Env) (G : Globals) (cmds : list (list string)) (crash : bool)
    (c : M (option error)) : Prop :=
  ∀ w,
    invs (c w).2 = (failFast E G (invs w) cmds).1
    ∧ match (failFast E G (invs w) cmds).2 with
      | Some e => (c w).1 = Val (Some e)
      | None => if crash then ∃ msg, (c w).1 = Panic msg else (c w).1 = Val None
      end.

(** ** The start of [main] *)

(** The command line after [flag.Parse]: the flags declared by [init], with
    the arguments that are left over. *)
Record CommandLine := {
  positional : list string;
  optConfig : string;
  optGlobalConfig : string;
  optAll : bool;
  optBackup : bool;
  optCheck : bool;
  optPrune : bool;
  optSendMail : bool;
  optTestMail : bool;
  optDebug : bool;
  optQuiet : bool;
  optVerbose : bool;
  optVersion : bool
}.

(** The command line that [init] declares when no flag is given. *)
Definition noFlags : CommandLine := {|
  positional := [];
  optConfig := EmptyString;
  optGlobalConfig := EmptyString;
  optAll := false; optBackup := false; optCheck := false; optPrune := false;
  optSendMail := false; optTestMail := false;
  optDebug := false; optQuiet := false; optVerbose := false; optVersion := false
|}.

(** What [loadGlobalConfig] leaves in the package-level variables that the
    rest of the program reads. *)
Record GlobalSettings := {
  setLockDir : string;
  setLogDir : string;
  setLogFileCount : Z;
  setDuplicacyPath : string
}.

(** What [main] uses and other files of the repository define: the version
    strings set at link time, and the functions [loadGlobalConfig],
    [sendTestMessage] and [configFile.SetConfig] followed by
    [configFile.LoadConfig], each taken as it comes. *)
Record Collaborators := {
  versiontext : string;
  githash : string;
  loadGlobalConfig : string → M (GlobalSettings + error);
  sendTestMessage : string → list string → M (option error);
  LoadConfig : string → bool → bool → M (ConfigFile + error)
}.

(** The command line with [-b], [-p] and [-c] in the place of [-a]. *)
Definition spellOutAll (cl : CommandLine) : CommandLine := {|
  positional := positional cl;
  optConfig := optConfig cl;
  optGlobalConfig := optGlobalConfig cl;
  optAll := false; optBackup := true; optCheck := true; optPrune := true;
  optSendMail := optSendMail cl; optTestMail := optTestMail cl;
  optDebug := optDebug cl; optQuiet := optQuiet cl;
  optVerbose := optVerbose cl; optVersion := optVersion cl
|}.

(** The package-level variables as [main] has set them when it reaches the
    test that some operation was asked for. *)
Definition globalsOf (cl : CommandLine) (s : GlobalSettings) (cfg : ConfigFile) : Globals := {|
  cmdConfig := optConfig cl;
  cmdBackup := optAll cl || optBackup cl;
  cmdCheck := optAll cl || optCheck cl;
  cmdPrune := optAll cl || optPrune cl;
  debugFlag := optDebug cl;
  globalLockDir := setLockDir s;
  globalLogDir := setLogDir s;
  globalLogFileCount := setLogFileCount s;
  duplicacyPath := setDuplicacyPath s;
  configFile := cfg
|}.

(** One of the two test messages of [main]: a failure to send is printed on
    the error console and nothing else happens. *)
Definition testMessage (K : Collaborators) (subject body complaint : string) : M unit :=
  err <- sendTestMessage K subject [body] ;;
  match err with
  | Some e => Fprintln Stderr (complaint +:+ " " +:+ e)
  | None => ret tt
  end.

(** [main] from its first line; it ends in [main] above.  The value is the
    argument of [os.Exit]. *)
Definition mainEntry (K : Collaborators) (E : Env) (cl : CommandLine) : M Z :=
  if negb (length (positional cl) =? 0) then
    logError E None
      ("Error: Unrecognized arguments specified on command line: "
       +:+ sprintSlice (positional cl)) ;;;
    ret 2%Z
  else if optVersion cl then
    Fprintln Stdout
      ("Version: " +:+ versiontext K +:+ ", Git Hash: " +:+ githash K) ;;;
    ret 0%Z
  else
    logMessage E None
      ("duplicacy-util running, version: " +:+ versiontext K
       +:+ ", Git Hash: " +:+ githash K) ;;;
    gl <- loadGlobalConfig K (optGlobalConfig cl) ;;
    match gl with
    | inr _ => ret 2%Z
    | inl settings =>
        if optTestMail cl then
          testMessage K
            "duplicacy-util: Backup results for configuration test (success)"
            "This is a test E-Mail message for a successful backup job"
            "Error sending succcess E-Mail message:" ;;;
          testMessage K
            "duplicacy-util: Backup results for configuration test (FAILURE)"
            "This is a test E-Mail message for a failed backup job"
            "Error sending failed E-Mail message:" ;;;
          ret 1%Z
        else if String.eqb (optConfig cl) EmptyString then
          logError E None
            "Error: Mandatory parameter -f is not specified (must be specified)" ;;;
          ret 2%Z
        else
          cf <- LoadConfig K (optConfig cl) (optDebug cl || optVerbose cl) (optDebug cl) ;;
          match cf with
          | inr _ => ret 1%Z
          | inl cfg => main E (globalsOf cl settings cfg)
          end
    end.

(** ** Relations between the world before and the world after *)

(** A computation that takes every world to one related to it, whether it
    returns or panics. *)
Definition respects (R : World → World → Prop) {A} (c : M A) : Prop :=
  ∀ w, R w (c w).2.

(** A computation that returns. *)
Definition returns {A} (c : M A) : Prop :=
  ∀ w, ∃ a w', c w = (Val a, w').

Definition same_held (w w' : World) : Prop := held w' = held w.

Definition same_file (p : string) (w w' : World) : Prop := fs w' !! p = fs w !! p.

Definition same_files (w w' : World) : Prop := fs w' = fs w.

Definition same_console (w w' : World) : Prop :=
  events w' = events w ∧ mailBody w' = mailBody w.

(** Nothing has changed but, possibly, the file [p]. *)
Definition only_file (p : string) (w w' : World) : Prop :=
  events w' = events w ∧ mailBody w' = mailBody w ∧ held w' = held w
  ∧ ∀ q, q ≠ p → fs w' !! q = fs w !! q.

(** The file [p] has kept its content and may have grown at its end; when
    it existed it still exists. *)
Definition grown (p : string) (w w' : World) : Prop :=
  (∃ suffix, default EmptyString (fs w' !! p)
             = default EmptyString (fs w !! p) +:+ suffix)
  ∧ (is_Some (fs w !! p) → is_Some (fs w' !! p)).

(** The console lines among the events. *)
Fixpoint console (evs : list Event) : list Event :=
  match evs with
  | [] => []
  | EvExec _ :: evs' => console evs'
  | ev :: evs' => ev :: console evs'
  end.

(** A console line and the entry of [mailBody] made with it: the entry is
    the message behind a time of day; the standard console shows the entry,
    the error console the bare message. *)
Definition mirror (ev : Event) (entry : string) : Prop :=
  ∃ t msg, entry = formatHMS t +:+ " " +:+ msg
           ∧ (ev = EvStdout entry ∨ ev = EvStderr msg).

(** The world has gone on by console lines and as many entries of
    [mailBody], pairwise made together. *)
Definition transcript (w w' : World) : Prop :=
  ∃ evs ms, events w' = events w ++ evs
            ∧ mailBody w' = mailBody w ++ ms
            ∧ Forall2 mirror (console evs) ms.

(** The exit codes the program passes to [os.Exit]. *)
Definition exitCodes : list Z := [0; 1; 2; 200; 201; 500]%Z.

(** A string without white space. *)
Fixpoint plain (s : string) : bool :=
  match s with
  | EmptyString => true
  | String a s' => negb (is_white a) && plain s'
  end.

(** The package-level variables with another value of [debugFlag]. *)
Definition setDebug (b : bool) (G : Globals) : Globals := {|
  cmdConfig := cmdConfig G;
  cmdBackup := cmdBackup G; cmdCheck := cmdCheck G; cmdPrune := cmdPrune G;
  debugFlag := b;
  globalLockDir := globalLockDir G; globalLogDir := globalLogDir G;
  globalLogFileCount := globalLogFileCount G;
  duplicacyPath := duplicacyPath G;
  configFile := configFile G
|}.

(** A call of the engine that a run may make: the configured program in the
    directory of the repository, with the sub-command of a selected phase. *)
Definition allowed_call (G : Globals) (inv : Invocation) : Prop :=
  prog inv = duplicacyPath G
  ∧ dir inv = repoDir (configFile G)
  ∧ ∃ sub rest, args inv = sub :: rest
      ∧ ((sub = "backup" ∧ cmdBackup G = true)
         ∨ (sub = "copy" ∧ cmdBackup G = true)
         ∨ (sub = "prune" ∧ cmdPrune G = true)
         ∨ (sub = "check" ∧ cmdCheck G = true)).

(** A computation whose value, when it returns, is one of the codes [L]. *)
Definition exits_within (L : list Z) (c : M Z) : Prop :=
  ∀ w code, (c w).1 = Val code → code ∈ L.

(** The global configuration file loads. *)
Definition loads (K : Collaborators) (g : string) : Prop :=
  ∀ w, ∃ s w', loadGlobalConfig K g w = (Val (inl s), w').

(** ** Collaborators for examples *)

Module DemoMain.

Definition settings : GlobalSettings := {|
  setLockDir := "/lock"; setLogDir := "/log";
  setLogFileCount := 5; setDuplicacyPath := "/bin/duplicacy"
|}.

(** Both files load; mail cannot be sent. *)
Definition collaborators : Collaborators := {|
  versiontext := "<dev>";
  githash := "<unknown>";
  loadGlobalConfig := λ _, ret (inl settings);
  sendTestMessage := λ _ _, ret (Some "connection refused");
  LoadConfig := λ _ _ _, ret (inl Demo.threeBackups)
|}.

Definition commandLine (f : string) (a : bool) : CommandLine := {|
  positional := [];
  optConfig := f;
  optGlobalConfig := EmptyString;
  optAll := a; optBackup := false; optCheck := false; optPrune := false;
  optSendMail := false; optTestMail := false;
  optDebug := false; optQuiet := false; optVerbose := false; optVersion := false
|}.

Definition testMail : CommandLine := {|
  positional := [];
  optConfig := "job";
  optGlobalConfig := EmptyString;
  optAll := true; optBackup := false; optCheck := false; optPrune := false;
  optSendMail := false; optTestMail := true;
  optDebug := false; optQuiet := false; optVerbose := false; optVersion := false
|}.

Definition strayArgument : CommandLine := {|
  positional := ["now"];
  optConfig := "job";
  optGlobalConfig := EmptyString;
  optAll := true; optBackup := false; optCheck := false; optPrune := false;
  optSendMail := false; optTestMail := false;
  optDebug := false; optQuiet := false; optVerbose := false; optVersion := true
|}.

Definition versionOnly : CommandLine := {|
  positional := [];
  optConfig := EmptyString;
  optGlobalConfig := EmptyString;
  optAll := false; optBackup := false; optCheck := false; optPrune := false;
  optSendMail := false; optTestMail := true;
  optDebug := false; optQuiet := false; optVerbose := false; optVersion := true
|}.

(** The installation of [Demo] with another number of log files. *)
Definition globalsDepth (n : Z) : Globals := {|
  cmdConfig := "job";
  cmdBackup := true; cmdCheck := true; cmdPrune := true; debugFlag := false;
  globalLockDir := "/lock"; globalLogDir := "/log";
  globalLogFileCount := n;
  duplicacyPath := "/bin/duplicacy";
  configFile := Demo.threeBackups
|}.

End DemoMain.

(** * Properties *)

(** ** [strings.Split] *)

Lemma Split_nonempty s c : strings.Split s c ≠ [].
Proof. destruct s as [|a s]; simpl; [done|]. destruct (Ascii.eqb a c); [done|]. by destruct (strings.Split s c). Qed.

Lemma Join_cons t ts sep :
  ts ≠ [] → strings.Join (t :: ts) sep = t +:+ sep +:+ strings.Join ts sep.
Proof. by destruct ts. Qed.

Lemma Split_Join s c : strings.Join (strings.Split s c) (String c EmptyString) = s.
Proof.
  induction s as [|a s IH]; simpl; [done|].
  destruct (Ascii.eqb_spec a c) as [->|Hne].
  - rewrite Join_cons by apply Split_nonempty. simpl. by rewrite IH.
  - pose proof (Split_nonempty s c) as Hn.
    destruct (strings.Split s c) as [|t ts]; [done|].
    rewrite <- IH. by destruct ts.
Qed.

Lemma Split_length s c : length (strings.Split s c) = S (strings.count c s).
Proof.
  induction s as [|a s IH]; simpl; [done|].
  destruct (Ascii.eqb a c); simpl; [by rewrite IH|].
  pose proof (Split_nonempty s c) as Hn.
  destruct (strings.Split s c); [done|]. simpl in *. lia.
Qed.

Lemma Split_no_sep s c :
  Forall (λ t, strings.contains c t = false) (strings.Split s c).
Proof.
  induction s as [|a s IH]; simpl; [by repeat constructor|].
  destruct (Ascii.eqb a c) eqn:Hac; [by constructor|].
  destruct (strings.Split s c) as [|t ts]; [by repeat constructor; simpl; rewrite Hac|].
  inversion IH; subst. constructor; [|done]. simpl. by rewrite Hac.
Qed.

Lemma Split_app_no_sep t s c :
  strings.contains c t = false →
  strings.Split (t +:+ String c s) c = t :: strings.Split s c.
Proof.
  induction t as [|a t IH]; simpl; intros Ht.
  - by rewrite Ascii.eqb_refl.
  - apply orb_false_iff in Ht as [Hac Ht]. rewrite Hac, IH by done. done.
Qed.

Lemma Split_id_no_sep t c :
  strings.contains c t = false → strings.Split t c = [t].
Proof.
  induction t as [|a t IH]; simpl; intros Ht; [done|].
  apply orb_false_iff in Ht as [Hac Ht]. by rewrite Hac, IH.
Qed.

Lemma Split_of_Join ts c :
  ts ≠ [] → Forall (λ t, strings.contains c t = false) ts →
  strings.Split (strings.Join ts (String c EmptyString)) c = ts.
Proof.
  induction ts as [|t ts IH]; [done|]. intros _ Hall.
  inversion Hall as [|?? Ht Hts]; subst.
  destruct ts as [|t' ts]; [by apply Split_id_no_sep|].
  rewrite Join_cons by done.
  change (String c EmptyString +:+ ?x) with (String c x).
  rewrite Split_app_no_sep by done. f_equal. by apply IH.
Qed.

(** ** The prune arguments *)

(** C7 (as amended): the prune arguments are [prune -all -storage <storage>]
    followed by the keep policy cut at every space character: joining the
    pieces with single spaces gives the policy back, there is one piece more
    than there are spaces, no piece contains a space, and the policy
    ["7d 30:7"] gives the two arguments [7d] and [30:7]. *)
Theorem pruneArgs_split_at_spaces (p : gmap string string) :
  let keep := mapGet p "keep" in
  let tokens := strings.Split keep space in
  pruneArgs p = ["prune"; "-all"; "-storage"; mapGet p "storage"] ++ tokens
  ∧ strings.Join tokens " " = keep
  ∧ length tokens = S (strings.count space keep)
  ∧ Forall (λ t, strings.contains space t = false) tokens
  ∧ (∀ name : string,
       pruneArgs (<["storage" := name]> {[ "keep" := "7d 30:7" ]})
       = ["prune"; "-all"; "-storage"; name; "7d"; "30:7"]).
Proof.
  cbv zeta. split; [reflexivity|].
  split; [apply Split_Join|].
  split; [apply Split_length|].
  split; [apply Split_no_sep|].
  intros name. unfold pruneArgs, mapGet.
  rewrite lookup_insert_eq, lookup_insert_ne, lookup_singleton_eq by done.
  reflexivity.
Qed.

(** C7, counterexample: a keep policy whose two parts are separated by a tab
    is white-space separated, and the program passes it as one argument. *)
Lemma pruneArgs_tab_one_token :
  let p : gmap string string := {[ "storage" := "s"; "keep" := Demo.tabbed ]} in
  pruneArgs p = ["prune"; "-all"; "-storage"; "s"; Demo.tabbed]
  ∧ whitespace_tokens (mapGet p "keep") = ["7d"; "30:7"]
  ∧ pruneArgs p
    ≠ ["prune"; "-all"; "-storage"; mapGet p "storage"]
      ++ whitespace_tokens (mapGet p "keep").
Proof. vm_compute. repeat split; congruence. Qed.

(** ** Time stamps *)

Lemma is_digit_digit n : is_digit (digit n) = true.
Proof.
  unfold is_digit, digit. cbv zeta.
  pose proof (Nat.mod_upper_bound n 10 ltac:(lia)) as Hlt.
  rewrite nat_ascii_embedding by lia.
  apply andb_true_iff. split; [apply Nat.leb_le | apply Nat.leb_le]; lia.
Qed.

Lemma formatHMS_shape t : is_HMS (formatHMS t) = true.
Proof.
  unfold formatHMS, pad2.
  change (is_HMS (String (digit (hour t / 10)) (String (digit (hour t))
            (String ":" (String (digit (minute t / 10)) (String (digit (minute t))
            (String ":" (String (digit (second t / 10))
            (String (digit (second t)) EmptyString)))))))) = true).
  unfold is_HMS. rewrite !is_digit_digit. reflexivity.
Qed.

(** ** The log sink *)

Section Logging.

Variable E : Env.

Lemma logFMessage_run (dst : Writer) (logger : option string) (msg : string) (w : World) :
  let t := clock E (match logger with Some _ => S (ticks w) | None => ticks w end) in
  let text := formatHMS t +:+ " " +:+ msg in
  ∃ w', logFMessage E dst logger msg w = (Val tt, w')
    ∧ mailBody w' = mailBody w ++ [text]
    ∧ events w' = events w
                  ++ [match dst with Stdout => EvStdout text | Stderr => EvStderr msg end]
    ∧ held w' = held w.
Proof.
  destruct logger, dst;
    cbv [logFMessage bind ret modify loggerPrintln timeNow Fprintln];
    eexists; (split; [reflexivity|]); done.
Qed.

(** C8 (as amended): whatever the destination, the line appended to
    [mailBody] is the message behind a time of day of the shape [HH:MM:SS]
    and a space; on the error console the message is printed without that
    prefix, on the standard console with it. *)
Theorem mailBody_always_time_prefixed
    (dst : Writer) (logger : option string) (msg : string) (w : World) :
  ∃ t : Time,
    is_HMS (formatHMS t) = true
    ∧ (logFMessage E dst logger msg w).1 = Val tt
    ∧ mailBody (logFMessage E dst logger msg w).2
      = mailBody w ++ [formatHMS t +:+ " " +:+ msg]
    ∧ events (logFMessage E dst logger msg w).2
      = events w ++ [match dst with
                     | Stdout => EvStdout (formatHMS t +:+ " " +:+ msg)
                     | Stderr => EvStderr msg
                     end].
Proof.
  destruct (logFMessage_run dst logger msg w) as (w' & Hrun & Hmail & Hev & _).
  eexists. split; [apply formatHMS_shape|].
  rewrite Hrun. simpl. eauto.
Qed.

End Logging.

(** C8, counterexample: an error message is recorded in [mailBody] with the
    time prefix, not bare. *)
Lemma logError_mailBody_prefixed :
  let w' := (logError (Demo.env None) None "boom" Demo.world).2 in
  mailBody w' = ["13:01:01 boom"]
  ∧ mailBody w' ≠ mailBody Demo.world ++ ["boom"]
  ∧ events w' = [EvStderr "boom"].
Proof. vm_compute. repeat split; congruence. Qed.

(** ** Computations that call no external program *)

Lemma invocations_app evs1 evs2 :
  invocations (evs1 ++ evs2) = invocations evs1 ++ invocations evs2.
Proof.
  induction evs1 as [|ev evs1 IH]; [done|].
  destruct ev; simpl; by rewrite IH.
Qed.

Lemma bind_val {A B} (c : M A) (k : A → M B) w a w' :
  c w = (Val a, w') → bind c k w = k a w'.
Proof. unfold bind. by intros ->. Qed.

Lemma quiet_ret {A} (a : A) : quiet (ret a).
Proof. intros w. by exists a, w. Qed.

Lemma quiet_bind {A B} (c : M A) (k : A → M B) :
  quiet c → (∀ a, quiet (k a)) → quiet (bind c k).
Proof.
  intros Hc Hk w. destruct (Hc w) as (a & w1 & Hrun & Hinv).
  destruct (Hk a w1) as (b & w2 & Hrun2 & Hinv2).
  exists b, w2. rewrite (bind_val _ _ _ _ _ Hrun). split; [done|congruence].
Qed.

Lemma quiet_modify (f : World → World) :
  (∀ w, invs (f w) = invs w) → quiet (modify f).
Proof. intros Hf w. by exists tt, (f w). Qed.

Lemma quiet_gets {A} (f : World → A) : quiet (gets f).
Proof. intros w. by exists (f w), w. Qed.

Lemma quiet_defer {A} (cleanup : M unit) (body : M A) :
  quiet cleanup → quiet body → quiet (defer cleanup body).
Proof.
  intros Hc Hb w. destruct (Hb w) as (a & w1 & Hrun & Hinv).
  destruct (Hc w1) as (u & w2 & Hrun2 & Hinv2).
  exists a, w2. unfold defer. rewrite Hrun, Hrun2. split; [done|]. simpl. congruence.
Qed.

Lemma quiet_forLines ls (f : string → M unit) :
  (∀ l, quiet (f l)) → quiet (forLines ls f).
Proof.
  intros Hf. induction ls as [|l ls IH]; [apply quiet_ret|].
  apply quiet_bind; [apply Hf | intros _; apply IH].
Qed.

Create HintDb quiet.
#[local] Hint Resolve quiet_ret quiet_gets quiet_defer quiet_forLines : quiet.
#[local] Hint Extern 2 (quiet (bind _ _)) => apply quiet_bind; [|intros ?] : quiet.
#[local] Hint Extern 1 (quiet (modify _)) => apply quiet_modify; intros ?; reflexivity : quiet.
#[local] Hint Extern 4 (quiet (match ?x with _ => _ end)) => destruct x : quiet.

Section Quiet.

Variable E : Env.
Variable G : Globals.

Lemma quiet_timeNow : quiet (timeNow E).
Proof. intros w. by eexists _, _. Qed.

Lemma quiet_Fprintln dst s : quiet (Fprintln dst s).
Proof.
  apply quiet_modify. intros w. unfold invs. simpl.
  rewrite invocations_app. destruct dst; simpl; apply app_nil_r.
Qed.

Hint Resolve quiet_timeNow quiet_Fprintln : quiet.

Lemma quiet_loggerPrintln file s : quiet (loggerPrintln E file s).
Proof. unfold loggerPrintln. auto with quiet. Qed.

Hint Resolve quiet_loggerPrintln : quiet.

Lemma quiet_logFMessage dst logger msg : quiet (logFMessage E dst logger msg).
Proof. unfold logFMessage. auto 10 with quiet. Qed.

Lemma quiet_logError logger msg : quiet (logError E logger msg).
Proof. apply quiet_logFMessage. Qed.

Lemma quiet_logMessage logger msg : quiet (logMessage E logger msg).
Proof. apply quiet_logFMessage. Qed.

Hint Resolve quiet_logError quiet_logMessage : quiet.

Lemma quiet_osOpen path : quiet (osOpen E path).
Proof. intros w. unfold osOpen. repeat case_match; by eexists _, _. Qed.

Lemma quiet_osCreate path : quiet (osCreate E path).
Proof. intros w. unfold osCreate. repeat case_match; by eexists _, _. Qed.

Lemma quiet_renameLoop root i : quiet (renameLoop root i).
Proof.
  induction i as [|i IH]; simpl; [apply quiet_ret|].
  unfold osRename. auto with quiet.
Qed.

Hint Resolve quiet_osOpen quiet_osCreate quiet_renameLoop : quiet.

Lemma quiet_ioCopy writer reader : quiet (ioCopy E writer reader).
Proof.
  unfold ioCopy. apply quiet_bind; [auto with quiet|]. intros data.
  apply quiet_bind; [auto with quiet|]. intros a.
  destruct (copyFault E reader) as [[n err|k err]|]; auto 10 with quiet.
Qed.

Hint Resolve quiet_ioCopy : quiet.

Lemma quiet_rotateLogFiles : quiet (rotateLogFiles E G).
Proof.
  unfold rotateLogFiles, osStatNotExist, fileClose, gzipNewWriter,
    archiverSetName, archiverClose.
  auto 30 with quiet.
Qed.

End Quiet.

(** ** Log rotation *)

Lemma length_append (a b : string) :
  String.length (a +:+ b) = String.length a + String.length b.
Proof. induction a as [|c a IH]; simpl; [done|]. by rewrite IH. Qed.

Lemma append_longer (a b : string) : b ≠ EmptyString → a ≠ a +:+ b.
Proof.
  intros Hb Heq. apply (f_equal String.length) in Heq.
  rewrite length_append in Heq. destruct b; [done|]. simpl in Heq. lia.
Qed.

Lemma genPath_not_root root i : genPath root i ≠ root.
Proof. unfold genPath. intros Heq. symmetry in Heq. by apply append_longer in Heq. Qed.

Lemma genPath_1 root : genPath root 1 = root +:+ ".1.gz".
Proof. reflexivity. Qed.

Lemma wrap64_small z : (- 2 ^ 63 ≤ z < 2 ^ 63)%Z → wrap64 z = z.
Proof. intros Hz. unfold wrap64. rewrite Z.mod_small by lia. lia. Qed.

Lemma shiftOne_root root m i : shiftOne root m i !! root = m !! root.
Proof.
  unfold shiftOne. change generation with genPath. destruct (m !! genPath root (Z.of_nat i)); [|done].
  rewrite lookup_insert_ne, lookup_delete_ne by apply genPath_not_root. done.
Qed.

Lemma shiftGenerations_root root N m : shiftGenerations root N m !! root = m !! root.
Proof.
  unfold shiftGenerations. generalize (rev (seq 1 (Z.to_nat (N - 2)))). intros l.
  revert m. induction l as [|i l IH]; intros m; simpl; [done|].
  by rewrite IH, shiftOne_root.
Qed.

Lemma append_inj_l (s a b : string) : s +:+ a = s +:+ b → a = b.
Proof. induction s as [|c s IH]; simpl; [done|]. intros [= H]. by apply IH. Qed.

Lemma append_inj_r (s a b : string) : a +:+ s = b +:+ s → a = b.
Proof.
  revert b. induction a as [|c a IH]; intros [|d b] H.
  - done.
  - apply (f_equal String.length) in H. rewrite !length_append in H.
    simpl in H. lia.
  - apply (f_equal String.length) in H. rewrite !length_append in H.
    simpl in H. lia.
  - simpl in H. injection H as -> H. f_equal. by apply IH.
Qed.

Lemma genPath_inj root (i j : Z) : genPath root i = genPath root j → i = j.
Proof.
  unfold genPath. intros H. apply append_inj_l in H.
  injection H as H. apply (append_inj_l EmptyString) in H. apply append_inj_r in H. by apply (inj pretty) in H.
Qed.

Lemma genPath_nat_ne root (i j : nat) :
  i ≠ j → genPath root (Z.of_nat i) ≠ genPath root (Z.of_nat j).
Proof. intros Hne H. apply genPath_inj in H. lia. Qed.

Section Generations.

Variable root : string.

(** The rename loop by the number of its iterations. *)
Lemma shift_step (n : nat) (m : gmap string string) :
  fold_left (shiftOne root) (rev (seq 1 (S n))) m
  = fold_left (shiftOne root) (rev (seq 1 n)) (shiftOne root m (S n)).
Proof. by rewrite seq_S, rev_unit. Qed.

Lemma shiftOne_other (m : gmap string string) (i : nat) (p : string) :
  p ≠ genPath root (Z.of_nat i) → p ≠ genPath root (Z.of_nat (S i)) →
  shiftOne root m i !! p = m !! p.
Proof.
  intros H1 H2. unfold shiftOne. change generation with genPath.
  replace (Z.of_nat i + 1)%Z with (Z.of_nat (S i)) by lia.
  destruct (m !! genPath root (Z.of_nat i)); [|done].
  by rewrite lookup_insert_ne, lookup_delete_ne.
Qed.

Lemma shiftOne_source (m : gmap string string) (i : nat) :
  shiftOne root m i !! genPath root (Z.of_nat i) = None.
Proof.
  unfold shiftOne. change generation with genPath.
  replace (Z.of_nat i + 1)%Z with (Z.of_nat (S i)) by lia.
  destruct (m !! genPath root (Z.of_nat i)) eqn:Hi; [|done].
  rewrite lookup_insert_ne by (apply genPath_nat_ne; lia).
  apply lookup_delete_eq.
Qed.

Lemma shiftOne_target (m : gmap string string) (i : nat) :
  shiftOne root m i !! genPath root (Z.of_nat (S i))
  = match m !! genPath root (Z.of_nat i) with
    | Some c => Some c
    | None => m !! genPath root (Z.of_nat (S i))
    end.
Proof.
  unfold shiftOne. change generation with genPath.
  replace (Z.of_nat i + 1)%Z with (Z.of_nat (S i)) by lia.
  destruct (m !! genPath root (Z.of_nat i)); [|done].
  apply lookup_insert_eq.
Qed.

(** What [n] iterations of the rename loop leave at every path. *)
Lemma shift_pointwise (n : nat) (m : gmap string string) :
  let r := fold_left (shiftOne root) (rev (seq 1 n)) m in
  (∀ p, (∀ i, 1 ≤ i ≤ S n → p ≠ genPath root (Z.of_nat i)) → r !! p = m !! p)
  ∧ (1 ≤ n → r !! genPath root 1 = None)
  ∧ (∀ j, 2 ≤ j ≤ n →
       r !! genPath root (Z.of_nat j) = m !! genPath root (Z.of_nat (j - 1)))
  ∧ (1 ≤ n →
       r !! genPath root (Z.of_nat (S n))
       = match m !! genPath root (Z.of_nat n) with
         | Some c => Some c
         | None => m !! genPath root (Z.of_nat (S n))
         end).
Proof.
  revert m. induction n as [|n IH]; intros m.
  - cbv zeta. simpl. repeat split; intros; (done || lia).
  - cbv zeta. rewrite shift_step.
    destruct (IH (shiftOne root m (S n))) as (Hframe & Hfirst & Hmid & Hlast).
    split; [|split; [|split]].
    + intros p Hp. rewrite Hframe by (intros i Hi; apply Hp; lia).
      apply shiftOne_other; apply Hp; lia.
    + intros _. destruct n as [|n].
      * simpl. apply (shiftOne_source m 1).
      * apply Hfirst. lia.
    + intros j Hj. destruct (decide (j = S n)) as [->|Hne].
      * destruct n as [|n]; [lia|].
        rewrite Hlast by lia. rewrite shiftOne_source.
        rewrite shiftOne_other by (apply genPath_nat_ne; lia).
        replace (S (S n) - 1) with (S n) by lia.
        by destruct (m !! genPath root (Z.of_nat (S n))).
      * rewrite Hmid by lia. apply shiftOne_other; apply genPath_nat_ne; lia.
    + intros _. rewrite Hframe by (intros i Hi; apply genPath_nat_ne; lia).
      apply shiftOne_target.
Qed.

End Generations.

Section Rotation.

Variable E : Env.
Variable G : Globals.

Lemma renameLoop_shift root (k : nat) (w : World) :
  (Z.of_nat k + 1 < 2 ^ 63)%Z →
  renameLoop root k w
  = (Val tt, set_fs (λ m, fold_left (shiftOne root) (rev (seq 1 k)) m) w).
Proof.
  revert w. induction k as [|k IH]; intros w Hk.
  - by destruct w.
  - cbn [renameLoop]. unfold bind at 1, osRename, modify.
    rewrite IH by lia. f_equal.
    rewrite seq_S, rev_unit. cbn [fold_left].
    rewrite wrap64_small by lia.
    unfold set_fs. simpl. f_equal.
Qed.

Lemma rename_phase (w : World) :
  depth_in_range G →
  renameLoop (logFileRoot E G) (Z.to_nat (wrap64 (globalLogFileCount G - 2))) w
  = (Val tt,
     set_fs (λ m, shiftGenerations (logFileRoot E G) (globalLogFileCount G) m) w).
Proof.
  intros HN. unfold depth_in_range in HN.
  rewrite wrap64_small by lia. apply renameLoop_shift. lia.
Qed.

Lemma rotateLogFiles_cases (w : World) :
  depth_in_range G →
  let root := logFileRoot E G in
  let gen1 := root +:+ ".1.gz" in
  let shifted := shiftGenerations root (globalLogFileCount G) (fs w) in
  let out := rotateLogFiles E G w in
  match fs w !! root with
  | None =>
      match statFault E root with
      | None => out.1 = Val None ∧ fs out.2 = shifted ∧ events out.2 = events w
      | Some _ =>
          out.1 = Val (Some (match openFault E root with
                             | Some e => e
                             | None => "open " +:+ root +:+ ": no such file or directory"
                             end))
          ∧ fs out.2 = shifted
      end
  | Some B =>
      match openFault E root, createFault E gen1, copyFault E root with
      | Some e, _, _ => out.1 = Val (Some e) ∧ fs out.2 = shifted
      | None, Some e, _ => out.1 = Val (Some e) ∧ fs out.2 = shifted
      | None, None, Some (ReadFailed n e) =>
          out.1 = Val (Some e)
          ∧ fs out.2
            = <[gen1 := flushed E gen1 (gzipBytes E gen1 (strings.take n B))]> shifted
      | None, None, Some (WriteFailed k e) =>
          out.1 = Val (Some e)
          ∧ fs out.2 = <[gen1 := strings.take k (gzipBytes E gen1 B)]> shifted
      | None, None, None =>
          out.1 = Val None
          ∧ fs out.2 = <[gen1 := flushed E gen1 (gzipBytes E gen1 B)]> shifted
      end
  end.
Proof.
  intros HN root gen1 shifted out. subst out. unfold rotateLogFiles.
  rewrite (bind_val _ _ _ _ _ (rename_phase w HN)).
  fold root. fold gen1.
  cbv [bind ret gets modify osStatNotExist osOpen osCreate defer fileClose
       gzipNewWriter archiverSetName archiverOf ioCopy archiverClose
       logError logFMessage timeNow Fprintln].
  assert (shifted !! root = fs w !! root) as Hroot by apply shiftGenerations_root.
  assert (root ≠ gen1) as Hne by (apply append_longer; done).
  cbn [fs set_fs]. fold shifted. rewrite Hroot.
  destruct (fs w !! root) as [B|] eqn:HB.
  - assert (match statFault E root with
            | Some _ => false
            | None => bool_decide (Some B = None)
            end = false) as -> by (destruct (statFault E root); done).
    destruct (openFault E root) as [e|]; [by split|].
    cbn [fs set_fs]. fold shifted. rewrite Hroot.
    destruct (createFault E gen1) as [e|]; [by split|].
    cbn [fs set_fs set_gzbuf gzbuf]. fold shifted.
    rewrite !lookup_insert_eq. cbn [default gzName accepted broken].
    rewrite lookup_insert_ne, Hroot by done. cbn [default].
    destruct (copyFault E root) as [[n e|k e]|];
      (split; [reflexivity|]);
      cbn [fs set_fs set_gzbuf set_events set_mailBody set_ticks gzbuf snd fst];
      fold shifted; rewrite ?lookup_insert_eq;
      cbn [default gzName accepted broken fs set_fs set_gzbuf snd fst];
      fold shifted; apply insert_insert_eq.
  - destruct (statFault E root) as [e0|].
    + destruct (openFault E root) as [e|]; [by split|].
      cbn [fs set_fs]. fold shifted. rewrite Hroot. by split.
    + rewrite bool_decide_eq_true_2 by done. by repeat split.
Qed.

Lemma performBackup_unfold (w : World) :
  performBackup E G w
  = orReturn (rotateLogFiles E G)
      (cr <- osCreate E (logFilePath E G) ;;
       match cr with
       | inr err => logError E None ("Error: " +:+ err) ;;; ret (Some err)
       | inl file => runPhases E G file
       end) (afterBanner E w).
Proof. reflexivity. Qed.

Lemma invs_afterBanner (w : World) : invs (afterBanner E w) = invs w.
Proof. unfold invs, afterBanner. simpl. rewrite invocations_app. apply app_nil_r. Qed.


Lemma rotateLogFiles_fs (w : World) :
  depth_in_range G →
  let shifted := shiftGenerations (logFileRoot E G) (globalLogFileCount G) (fs w) in
  fs (rotateLogFiles E G w).2 = shifted
  ∨ ∃ z, is_Some (fs w !! logFileRoot E G)
         ∧ fs (rotateLogFiles E G w).2 = <[logFileRoot E G +:+ ".1.gz" := z]> shifted.
Proof.
  intros HN. pose proof (rotateLogFiles_cases w HN) as H. cbv zeta in *.
  destruct (fs w !! logFileRoot E G) as [B|].
  - destruct (openFault E (logFileRoot E G)); [left; apply H|].
    destruct (createFault E (logFileRoot E G +:+ ".1.gz")); [left; apply H|].
    destruct (copyFault E (logFileRoot E G)) as [[n e|k e]|];
      right; eexists; (split; [done|]); apply H.
  - destruct (statFault E (logFileRoot E G)); left; apply H.
Qed.

Lemma shiftGenerations_pointwise (N : Z) (m : gmap string string) :
  let root := logFileRoot E G in
  let n := Z.to_nat (N - 2) in
  let r := shiftGenerations root N m in
  (∀ p, (∀ i, 1 ≤ i ≤ S n → p ≠ genPath root (Z.of_nat i)) → r !! p = m !! p)
  ∧ (1 ≤ n → r !! genPath root 1 = None)
  ∧ (∀ j, 2 ≤ j ≤ n →
       r !! genPath root (Z.of_nat j) = m !! genPath root (Z.of_nat (j - 1)))
  ∧ (1 ≤ n →
       r !! genPath root (Z.of_nat (S n))
       = match m !! genPath root (Z.of_nat n) with
         | Some c => Some c
         | None => m !! genPath root (Z.of_nat (S n))
         end).
Proof. apply shift_pointwise. Qed.



(** C6: when the current log holds the bytes [B] and opening it, creating
    generation 1, copying and closing the gzip writer do not fail, then
    after one rotation
    generation 1 exists and decompresses to exactly [B] (whether or not
    older generations existed), and [os.Create] of the log, or of any
    path, succeeds with an empty file whenever the system lets the file be
    created: the old log does not stand in the way. *)
Theorem rotation_preserves_log_bytes
    (gunzip : string → option string) (w : World) (B : string) :
  (∀ n b, gunzip (gzipBytes E n b) = Some b) →
  depth_in_range G →
  fs w !! logFileRoot E G = Some B →
  openFault E (logFileRoot E G) = None →
  createFault E (logFileRoot E G +:+ ".1.gz") = None →
  copyFault E (logFileRoot E G) = None →
  closeFault E (logFileRoot E G +:+ ".1.gz") = None →
  let out := rotateLogFiles E G w in
  out.1 = Val None
  ∧ (∃ z, fs out.2 !! (logFileRoot E G +:+ ".1.gz") = Some z ∧ gunzip z = Some B)
  ∧ (∀ p, createFault E p = None →
       (osCreate E p out.2).1 = Val (inl p)
       ∧ fs (osCreate E p out.2).2 !! p = Some EmptyString).
Proof.
  intros Hgz HN HB Ho Hc Hk Hcl out.
  pose proof (rotateLogFiles_cases w HN) as Hcases. cbv zeta in Hcases.
  rewrite HB, Ho, Hc, Hk in Hcases. destruct Hcases as [Hres Hfs].
  unfold flushed in Hfs. rewrite Hcl in Hfs.
  split; [done|]. split.
  - eexists. subst out. rewrite Hfs, lookup_insert_eq. split; [done|]. apply Hgz.
  - intros p Hp. unfold osCreate. rewrite Hp. simpl.
    split; [done|]. apply lookup_insert_eq.
Qed.

End Rotation.



(** C6, an instance: the log of the previous run holds the bytes [old]. *)
Lemma rotation_preserves_log_bytes_witness :
  let out := rotateLogFiles (Demo.env None)
               (Demo.globals true true true Demo.threeBackups) Demo.world in
  out.1 = Val None
  ∧ (∃ z, fs out.2 !! "/log/job.log.1.gz" = Some z ∧ Demo.gunzip z = Some "old")
  ∧ (∀ p, createFault (Demo.env None) p = None →
       (osCreate (Demo.env None) p out.2).1 = Val (inl p)
       ∧ fs (osCreate (Demo.env None) p out.2).2 !! p = Some EmptyString).
Proof.
  apply (rotation_preserves_log_bytes (Demo.env None)
           (Demo.globals true true true Demo.threeBackups) Demo.gunzip Demo.world "old").
  - intros n b. reflexivity.
  - unfold depth_in_range. simpl. lia.
  - vm_compute. reflexivity.
  - reflexivity.
  - reflexivity.
  - reflexivity.
  - reflexivity.
Defined.

(** ** The pipeline *)

Section Pipeline.

Variable E : Env.
Variable G : Globals.

Lemma failFast_app h cmds1 cmds2 :
  failFast E G h (cmds1 ++ cmds2)
  = match (failFast E G h cmds1).2 with
    | Some e => failFast E G h cmds1
    | None => failFast E G (failFast E G h cmds1).1 cmds2
    end.
Proof.
  revert h. induction cmds1 as [|c cmds1 IH]; intros h; simpl; [done|].
  destruct (external E h (invocation G c)).2; [done|]. apply IH.
Qed.

(** The calls of a fail-fast execution are the earlier calls followed by a
    prefix of the commands, all of them when no command fails. *)
Lemma failFast_prefix h cmds :
  ∃ n, n ≤ length cmds
    ∧ (failFast E G h cmds).1 = h ++ map (invocation G) (take n cmds)
    ∧ ((failFast E G h cmds).2 = None → n = length cmds).
Proof.
  revert h. induction cmds as [|c cmds IH]; intros h.
  - exists 0. simpl. by rewrite app_nil_r.
  - simpl. destruct (external E h (invocation G c)).2 as [e|] eqn:Hext.
    + exists 1. simpl. split; [lia|]. done.
    + destruct (IH (h ++ [invocation G c])) as (n & Hn & Hcalls & Hnone).
      exists (S n). simpl. rewrite Hcalls, <- app_assoc. simpl.
      split; [lia|]. split; [done|]. intros ?; f_equal; auto.
Qed.

(** In a fail-fast execution a call that fails is the last call, and its
    error is the outcome. *)
Lemma failFast_failing_call_last h cmds j inv e :
  (failFast E G h cmds).1 !! (length h + j) = Some inv →
  (external E (take (length h + j) (failFast E G h cmds).1) inv).2 = Some e →
  length (failFast E G h cmds).1 = length h + j + 1
  ∧ (failFast E G h cmds).2 = Some e.
Proof.
  revert h j. induction cmds as [|c cmds IH]; intros h j Hcall Hfail.
  - simpl in Hcall. apply lookup_lt_Some in Hcall. lia.
  - simpl in *. destruct (external E h (invocation G c)).2 as [e0|] eqn:Hext.
    + simpl in *.
      assert (j = 0) as -> by (apply lookup_lt_Some in Hcall; rewrite length_app in Hcall; simpl in Hcall; lia).
      rewrite Nat.add_0_r in *.
      rewrite lookup_app_r, Nat.sub_diag in Hcall by lia. injection Hcall as <-.
      rewrite take_app_length in Hfail.
      rewrite length_app. simpl. split; [lia|congruence].
    + destruct (failFast_prefix (h ++ [invocation G c]) cmds) as (n & _ & Hcalls & _).
      destruct j as [|j].
      * rewrite Nat.add_0_r in *. rewrite Hcalls in Hcall, Hfail.
        rewrite <- app_assoc in Hcall, Hfail.
        rewrite lookup_app_r, Nat.sub_diag in Hcall by lia. injection Hcall as <-.
        rewrite take_app_length in Hfail. congruence.
      * replace (length h + S j) with (length (h ++ [invocation G c]) + j) in *
          by (rewrite length_app; simpl; lia).
        destruct (IH _ _ Hcall Hfail) as [Hlen Hres]. split; [|done].
        rewrite Hlen. lia.
Qed.
Lemma take_take_le {A} (l : list A) n k : n ≤ k → take n (take k l) = take n l.
Proof. intros. rewrite take_take. f_equal. lia. Qed.

(** *** Composition *)

Lemma behaves_nil : behaves E G [] false (ret None).
Proof. intros w. by split. Qed.

Lemma behaves_quiet_bind {A} (c : M A) (k : A → M (option error)) cmds crash :
  quiet c → (∀ a, behaves E G cmds crash (k a)) → behaves E G cmds crash (bind c k).
Proof.
  intros Hc Hk w. destruct (Hc w) as (a & w1 & Hrun & Hinv).
  rewrite (bind_val _ _ _ _ _ Hrun). rewrite <- Hinv. apply Hk.
Qed.

Lemma behaves_orReturn cmds1 cmds2 crash m1 m2 :
  behaves E G cmds1 false m1 → behaves E G cmds2 crash m2 →
  behaves E G (cmds1 ++ cmds2) crash (orReturn m1 m2).
Proof.
  intros H1 H2 w. destruct (H1 w) as [Hinv1 Hres1].
  rewrite failFast_app. unfold orReturn, bind.
  destruct (m1 w) as [r1 w1] eqn:Hm1. simpl in *.
  destruct (failFast E G (invs w) cmds1).2 as [e|] eqn:Hff.
  - subst r1. simpl. by rewrite Hff.
  - subst r1. rewrite <- Hinv1. apply H2.
Qed.

Lemma behaves_crash_orReturn cmds1 m1 m2 :
  behaves E G cmds1 true m1 → behaves E G cmds1 true (orReturn m1 m2).
Proof.
  intros H1 w. destruct (H1 w) as [Hinv1 Hres1].
  unfold orReturn, bind. destruct (m1 w) as [r1 w1] eqn:Hm1. simpl in *.
  destruct (failFast E G (invs w) cmds1).2 as [e|].
  - subst r1. done.
  - destruct Hres1 as [msg ->]. split; [done|]. by exists msg.
Qed.

Lemma behaves_orReturn_tail cmds crash m1 m2 :
  behaves E G cmds crash m1 → behaves E G [] false m2 →
  behaves E G cmds crash (orReturn m1 m2).
Proof.
  intros H1 H2. destruct crash.
  - by apply behaves_crash_orReturn.
  - rewrite <- (app_nil_r cmds). by apply behaves_orReturn.
Qed.

(** *** One command *)

Lemma Executor_run path cmdArgs cwd (callback : string → M unit) w :
  (∀ l, quiet (callback l)) →
  let inv := {| prog := path; args := cmdArgs; dir := cwd |} in
  ∃ w', Executor E path cmdArgs cwd callback w = (Val (external E (invs w) inv).2, w')
    ∧ invs w' = invs w ++ [inv].
Proof.
  intros Hcb inv. unfold Executor. fold inv.
  cbv [bind gets modify].
  set (w1 := set_events _ w).
  destruct (quiet_forLines (external E (invs w) inv).1 callback Hcb w1)
    as ([] & w2 & Hrun & Hinv).
  rewrite Hrun. exists w2. split; [done|].
  rewrite Hinv. unfold invs, w1. simpl. by rewrite invocations_app.
Qed.

Lemma behaves_runCommand logger cmdArgs :
  behaves E G [cmdArgs] false (runCommand E G logger cmdArgs).
Proof.
  intros w. unfold runCommand.
  assert (quiet (if debugFlag G
                 then logMessage E (Some logger)
                        ("Executing: " +:+ duplicacyPath G +:+ sprintSlice cmdArgs)
                 else ret tt)) as Hdbg
    by (destruct (debugFlag G); [apply quiet_logMessage | apply quiet_ret]).
  destruct (Hdbg w) as ([] & w0 & Hrun0 & Hinv0).
  rewrite (bind_val _ _ _ _ _ Hrun0).
  destruct (Executor_run (duplicacyPath G) cmdArgs (repoDir (configFile G))
              (loggerPrintln E logger) w0 (quiet_loggerPrintln E logger))
    as (w1 & Hrun1 & Hinv1).
  rewrite (bind_val _ _ _ _ _ Hrun1). rewrite Hinv0 in *.
  simpl. fold (invocation G cmdArgs) in *.
  destruct (external E (invs w) (invocation G cmdArgs)).2 as [e|].
  - destruct (quiet_logError E (Some logger) ("Error executing command: " +:+ e) w1)
      as ([] & w2 & Hrun2 & Hinv2).
    rewrite (bind_val _ _ _ _ _ Hrun2). simpl. split; [congruence|done].
  - simpl. done.
Qed.

Lemma index_Some {A} (xs : list A) i x : xs !! i = Some x → index xs i = ret x.
Proof. unfold index. by intros ->. Qed.

Lemma index_None {A} (xs : list A) i :
  xs !! i = None → index xs i = panic "index out of range".
Proof. unfold index. by intros ->. Qed.

Lemma behaves_ret_bind {A} (a : A) (k : A → M (option error)) cmds crash :
  behaves E G cmds crash (k a) → behaves E G cmds crash (bind (ret a) k).
Proof. intros Hk w. apply Hk. Qed.

Lemma behaves_panic_bind {A} msg (k : A → M (option error)) :
  behaves E G [] true (bind (panic msg) k).
Proof. intros w. split; [done|]. by exists msg. Qed.

Lemma behaves_backupStep logger i b :
  backupInfo (configFile G) !! i = Some b →
  behaves E G [backupArgs b] false (backupStep E G logger i).
Proof.
  intros Hb. unfold backupStep. rewrite (index_Some _ _ _ Hb).
  apply behaves_quiet_bind; [apply quiet_loggerPrintln|]. intros _.
  apply behaves_ret_bind.
  apply behaves_quiet_bind; [apply quiet_logMessage|]. intros _.
  apply behaves_runCommand.
Qed.

Lemma behaves_copyStep logger i c :
  copyInfo (configFile G) !! i = Some c →
  behaves E G [copyArgs c] false (copyStep E G logger i).
Proof.
  intros Hc. unfold copyStep. rewrite (index_Some _ _ _ Hc).
  apply behaves_quiet_bind; [apply quiet_loggerPrintln|]. intros _.
  apply behaves_ret_bind.
  apply behaves_quiet_bind; [apply quiet_logMessage|]. intros _.
  apply behaves_runCommand.
Qed.

Lemma behaves_pruneStep logger i p :
  pruneInfo (configFile G) !! i = Some p →
  behaves E G [pruneArgs p] false (pruneStep E G logger i).
Proof.
  intros Hp. unfold pruneStep. rewrite (index_Some _ _ _ Hp).
  apply behaves_quiet_bind; [apply quiet_loggerPrintln|]. intros _.
  apply behaves_ret_bind.
  apply behaves_quiet_bind; [apply quiet_logMessage|]. intros _.
  apply behaves_runCommand.
Qed.

(** The check step runs its command when [pruneInfo] has the index too. *)
Lemma behaves_checkStep logger i c p :
  checkInfo (configFile G) !! i = Some c →
  pruneInfo (configFile G) !! i = Some p →
  behaves E G [checkArgs c] false (checkStep E G logger i).
Proof.
  intros Hc Hp. unfold checkStep.
  rewrite (index_Some _ _ _ Hc), (index_Some _ _ _ Hp).
  apply behaves_quiet_bind; [apply quiet_loggerPrintln|]. intros _.
  apply behaves_ret_bind. apply behaves_ret_bind.
  apply behaves_quiet_bind; [apply quiet_logMessage|]. intros _.
  apply behaves_runCommand.
Qed.

(** It panics, before any call, when [pruneInfo] lacks the index. *)
Lemma behaves_checkStep_overrun logger i c :
  checkInfo (configFile G) !! i = Some c →
  pruneInfo (configFile G) !! i = None →
  behaves E G [] true (checkStep E G logger i).
Proof.
  intros Hc Hp. unfold checkStep.
  rewrite (index_Some _ _ _ Hc), (index_None _ _ Hp).
  apply behaves_quiet_bind; [apply quiet_loggerPrintln|]. intros _.
  apply behaves_ret_bind. apply behaves_panic_bind.
Qed.

(** *** Loops *)

Lemma forEach_behaves {A} (f : A → list string) (step : nat → M (option error))
    (n : nat) (l : list A) (k : nat) :
  (∀ j x, l !! j = Some x → k + j < n → behaves E G [f x] false (step (k + j))) →
  (∀ j x, l !! j = Some x → n ≤ k + j → behaves E G [] true (step (k + j))) →
  behaves E G (take (n - k) (map f l)) (n - k <? length l)
    (forEach (seq k (length l)) step).
Proof.
  revert k. induction l as [|x l IH]; intros k Hrun Hcrash.
  - cbn [map length seq forEach]. rewrite take_nil. apply behaves_nil.
  - cbn [length seq forEach]. fold (orReturn (step k) (forEach (seq (S k) (length l)) step)).
    assert (∀ j y, l !! j = Some y → S k + j = k + S j) as Hshift by (intros; lia).
    destruct (decide (k < n)) as [Hlt|Hge].
    + replace (n - k) with (S (n - S k)) by lia. cbn [map take].
      replace (S (n - S k) <? S (length l)) with (n - S k <? length l)
        by (destruct (Nat.ltb_spec (n - S k) (length l)),
                     (Nat.ltb_spec (S (n - S k)) (S (length l))); done || lia).
      apply (behaves_orReturn [f x]).
      * rewrite <- (Nat.add_0_r k). apply (Hrun 0 x); [done|lia].
      * apply IH.
        -- intros j y Hj Hjn. rewrite (Hshift j y Hj). apply (Hrun (S j) y); [done|lia].
        -- intros j y Hj Hjn. rewrite (Hshift j y Hj). apply (Hcrash (S j) y); [done|lia].
    + replace (n - k) with 0 by lia. cbn [take].
      replace (0 <? S (length l)) with true by done.
      apply behaves_crash_orReturn.
      rewrite <- (Nat.add_0_r k). apply (Hcrash 0 x); [done|lia].
Qed.

Lemma forRange_behaves {A} (f : A → list string) (step : nat → M (option error))
    (l : list A) :
  (∀ i x, l !! i = Some x → behaves E G [f x] false (step i)) →
  behaves E G (map f l) false (forRange l step).
Proof.
  intros Hstep. unfold forRange.
  pose proof (forEach_behaves f step (length l) l 0) as H.
  rewrite Nat.sub_0_r, Nat.ltb_irrefl in H.
  rewrite take_ge in H by (rewrite length_map; lia).
  apply H.
  - intros j x Hj _. by apply Hstep.
  - intros j x Hj Hle. apply lookup_lt_Some in Hj. simpl in Hle. lia.
Qed.

Lemma checkLoop_behaves logger :
  behaves E G
    (take (length (pruneInfo (configFile G))) (map checkArgs (checkInfo (configFile G))))
    (length (pruneInfo (configFile G)) <? length (checkInfo (configFile G)))
    (forRange (checkInfo (configFile G)) (checkStep E G logger)).
Proof.
  pose proof (forEach_behaves checkArgs (checkStep E G logger)
                (length (pruneInfo (configFile G))) (checkInfo (configFile G)) 0) as H.
  rewrite Nat.sub_0_r in H. apply H.
  - intros j c Hc Hlt. simpl in *.
    destruct (lookup_lt_is_Some_2 (pruneInfo (configFile G)) j Hlt) as [p Hp].
    by apply (behaves_checkStep logger j c p).
  - intros j c Hc Hge. simpl in *.
    apply (behaves_checkStep_overrun logger j c); [done|].
    by apply lookup_ge_None_2.
Qed.

(** *** [runPhases] and [performBackup] *)

Lemma runPhases_behaves logger :
  behaves E G (reachable G) (checkOverrun G) (runPhases E G logger).
Proof.
  unfold runPhases, reachable, checkOverrun.
  apply behaves_quiet_bind; [apply quiet_timeNow|]. intros startTime.
  apply behaves_quiet_bind; [apply quiet_timeNow|]. intros now.
  apply behaves_quiet_bind; [apply quiet_logMessage|]. intros _.
  apply behaves_orReturn.
  { destruct (cmdBackup G); [|apply behaves_nil].
    apply behaves_orReturn.
    - apply forRange_behaves. intros i b. apply behaves_backupStep.
    - case_bool_decide as Hlen.
      + apply forRange_behaves. intros i c. apply behaves_copyStep.
      + destruct (copyInfo (configFile G)); [apply behaves_nil|]. simpl in Hlen. lia. }
  apply behaves_orReturn.
  { destruct (cmdPrune G); [|apply behaves_nil].
    apply forRange_behaves. intros i p. apply behaves_pruneStep. }
  apply behaves_orReturn_tail.
  { destruct (cmdCheck G); [apply checkLoop_behaves | apply behaves_nil]. }
  apply behaves_quiet_bind; [apply quiet_timeNow|]. intros endTime.
  apply behaves_quiet_bind; [apply quiet_loggerPrintln|]. intros _.
  apply behaves_quiet_bind; [apply quiet_logMessage|]. intros _.
  apply behaves_nil.
Qed.

Lemma rotateLogFiles_no_faults (w : World) :
  no_faults E → (rotateLogFiles E G w).1 = Val None.
Proof.
  intros Hnf.
  destruct (Hnf (logFileRoot E G)) as (Hs & Ho & _ & Hk & _).
  destruct (Hnf (logFileRoot E G +:+ ".1.gz")) as (_ & _ & Hc & _).
  unfold rotateLogFiles.
  destruct (quiet_renameLoop (logFileRoot E G)
              (Z.to_nat (wrap64 (globalLogFileCount G - 2))) w)
    as ([] & w1 & Hrun & _).
  rewrite (bind_val _ _ _ _ _ Hrun).
  cbv [bind ret gets modify osStatNotExist osOpen osCreate defer fileClose
       gzipNewWriter archiverSetName archiverOf ioCopy archiverClose].
  rewrite Hs, Ho.
  destruct (fs w1 !! logFileRoot E G) eqn:Hroot.
  - rewrite bool_decide_eq_false_2 by done. rewrite Hroot, Hc. cbn [fst snd]. by rewrite Hk.
  - rewrite bool_decide_eq_true_2 by done. done.
Qed.

(** Either the set-up of the log fails, which needs a faulty system, or
    the run is the fail-fast execution of the reachable commands. *)
Lemma performBackup_cases (w : World) :
  (∃ e, (performBackup E G w).1 = Val (Some e)
        ∧ invs (performBackup E G w).2 = invs w
        ∧ ¬ no_faults E)
  ∨ (invs (performBackup E G w).2 = (failFast E G (invs w) (reachable G)).1
     ∧ match (failFast E G (invs w) (reachable G)).2 with
       | Some e => (performBackup E G w).1 = Val (Some e)
       | None => if checkOverrun G
                 then ∃ msg, (performBackup E G w).1 = Panic msg
                 else (performBackup E G w).1 = Val None
       end).
Proof.
  rewrite performBackup_unfold. unfold orReturn.
  destruct (quiet_rotateLogFiles E G (afterBanner E w)) as (r & w1 & Hrun & Hinv).
  rewrite (bind_val _ _ _ _ _ Hrun). rewrite invs_afterBanner in Hinv.
  destruct r as [e|].
  { left. exists e. simpl. split; [done|]. split; [done|].
    intros Hnf. pose proof (rotateLogFiles_no_faults (afterBanner E w) Hnf) as Hno.
    rewrite Hrun in Hno. done. }
  unfold bind at 1, osCreate.
  destruct (createFault E (logFilePath E G)) as [e|] eqn:Hcreate.
  { left. exists e.
    destruct (quiet_logError E None ("Error: " +:+ e) w1) as ([] & w2 & Hrun2 & Hinv2).
    rewrite (bind_val _ _ _ _ _ Hrun2). simpl.
    split; [done|]. split.
    { rewrite <- Hinv. unfold invs. simpl. rewrite invocations_app. apply app_nil_r. }
    intros Hnf. destruct (Hnf (logFilePath E G)) as (_ & _ & Hc & _). congruence. }
  right. rewrite <- Hinv.
  change (invs w1) with (invs (set_fs (insert (logFilePath E G) EmptyString) w1)).
  apply runPhases_behaves.
Qed.

Lemma reachable_prefix : reachable G = take (length (reachable G)) (plan G).
Proof.
  unfold reachable, plan.
  set (A := if cmdBackup G then _ else _).
  set (B := if cmdPrune G then _ else _).
  destruct (cmdCheck G).
  - set (C := map checkArgs _). set (m := length _).
    rewrite !length_app, !take_app_add'. 2, 3: reflexivity.
    do 2 f_equal. rewrite length_take.
    destruct (decide (m ≤ length C)).
    + f_equal. lia.
    + rewrite !take_ge by lia. done.
  - by rewrite take_ge.
Qed.

Lemma reachable_all : checkOverrun G = false → reachable G = plan G.
Proof.
  unfold checkOverrun, reachable, plan. destruct (cmdCheck G); [|done].
  simpl. intros Hlt. apply Nat.ltb_ge in Hlt.
  rewrite take_ge; [done|]. by rewrite length_map.
Qed.

Lemma performBackup_exact (w : World) :
  no_faults E → checkOverrun G = false →
  (performBackup E G w).1 = Val (failFast E G (invs w) (plan G)).2
  ∧ invs (performBackup E G w).2 = (failFast E G (invs w) (plan G)).1.
Proof.
  intros Hnf Hover.
  destruct (performBackup_cases w) as [(e & _ & _ & Hfault)|[Hinv Hres]]; [done|].
  rewrite (reachable_all Hover) in *. split; [|done].
  rewrite Hover in Hres.
  by destruct (failFast E G (invs w) (plan G)).2.
Qed.

(** C2: the external calls of a run are a prefix of the commands of the
    selected phases in the order backup, copy, prune, check, each phase in
    the order of its list; they are the calls of the fail-fast execution
    of such a prefix, and a run that returns no error has called every
    command.  A call that fails is the last call of the run, whatever
    operations and phases remain, and the run returns its error.  When the
    system has no fault and the check loop stays within
    [pruneInfo], the run is exactly the fail-fast execution of the whole
    list.  With three backup storages whose second call fails, exactly the
    first two calls are made and the failure is returned. *)
Theorem pipeline_order_and_fail_fast (w : World) :
  let out := performBackup E G w in
  (∃ k, k ≤ length (plan G)
     ∧ invs out.2 = (failFast E G (invs w) (take k (plan G))).1
     ∧ (∀ e, (failFast E G (invs w) (take k (plan G))).2 = Some e →
          out.1 = Val (Some e))
     ∧ (out.1 = Val None →
          k = length (plan G) ∧ (failFast E G (invs w) (plan G)).2 = None)
     ∧ ∃ n, n ≤ k ∧ invs out.2 = invs w ++ map (invocation G) (take n (plan G)))
  ∧ (∀ j inv e,
       invs out.2 !! (length (invs w) + j) = Some inv →
       (external E (take (length (invs w) + j) (invs out.2)) inv).2 = Some e →
       length (invs out.2) = length (invs w) + j + 1 ∧ out.1 = Val (Some e))
  ∧ (no_faults E → checkOverrun G = false →
       out.1 = Val (failFast E G (invs w) (plan G)).2
       ∧ invs out.2 = (failFast E G (invs w) (plan G)).1)
  ∧ (∀ b1 b2 b3 e,
       no_faults E → cmdBackup G = true →
       backupInfo (configFile G) = [b1; b2; b3] →
       (external E (invs w) (invocation G (backupArgs b1))).2 = None →
       (external E (invs w ++ [invocation G (backupArgs b1)])
          (invocation G (backupArgs b2))).2 = Some e →
       out.1 = Val (Some e)
       ∧ invs out.2
         = invs w ++ [invocation G (backupArgs b1); invocation G (backupArgs b2)]).
Proof.
  cbv zeta. split; [|split; [|split]].
  - destruct (performBackup_cases w) as [(e & Hres & Hinv & _)|[Hinv Hres]].
    + exists 0. rewrite take_0. simpl. split; [lia|]. split; [done|].
      split; [done|]. split; [by rewrite Hres|].
      exists 0. split; [done|]. by rewrite Hinv, app_nil_r.
    + exists (length (reachable G)). rewrite <- reachable_prefix.
      split. { rewrite reachable_prefix at 1. rewrite length_take. lia. }
      split; [done|]. split; [|split].
      * intros e He. by rewrite He in Hres.
      * intros Hnone.
        destruct (failFast E G (invs w) (reachable G)).2 as [e|] eqn:Hff;
          [by rewrite Hnone in Hres|].
        destruct (checkOverrun G) eqn:Hover.
        { destruct Hres as [msg Hmsg]. by rewrite Hnone in Hmsg. }
        rewrite <- (reachable_all Hover). done.
      * destruct (failFast_prefix (invs w) (reachable G)) as (n & Hn & Hcalls & _).
        exists n. split; [done|].
        rewrite Hinv, Hcalls. do 2 f_equal.
        rewrite reachable_prefix at 1. by apply take_take_le.
  - intros j inv e Hcall Hfail.
    destruct (performBackup_cases w) as [(e' & _ & Hinv & _)|[Hinv Hres]].
    + rewrite Hinv in Hcall. apply lookup_lt_Some in Hcall. lia.
    + rewrite Hinv in *.
      destruct (failFast_failing_call_last _ _ _ _ _ Hcall Hfail) as [Hlen Hff].
      split; [done|]. by rewrite Hff in Hres.
  - apply performBackup_exact.
  - intros b1 b2 b3 e Hnf Hb Hinfo Hx1 Hx2.
    destruct (performBackup_cases w) as [(e' & _ & _ & Hfault)|[Hinv Hres]]; [done|].
    unfold reachable in *. rewrite Hb, Hinfo in *. simpl in Hinv, Hres.
    rewrite Hx1 in *. simpl in Hinv, Hres. rewrite Hx2 in *. simpl in Hinv, Hres.
    split; [done|]. by rewrite Hinv, <- app_assoc.
Qed.

End Pipeline.

(** C2, an instance: three backup storages, every phase selected, and an
    engine whose second call fails. *)
Lemma pipeline_order_and_fail_fast_witness :
  let E := Demo.env (Some 1) in
  let G := Demo.globals true true true Demo.threeBackups in
  (performBackup E G Demo.world).1 = Val (Some "exit status 1")
  ∧ invs (performBackup E G Demo.world).2
    = [invocation G ["backup"; "-storage"; "A"; "-threads"; "4"; "-stats"];
       invocation G ["backup"; "-storage"; "B"; "-threads"; "4"; "-stats"]].
Proof.
  intros E G.
  destruct (pipeline_order_and_fail_fast E G Demo.world) as (_ & _ & _ & Hthree).
  apply (Hthree (Demo.storage "A") (Demo.storage "B") (Demo.storage "C") "exit status 1").
  - intros p. repeat split.
  - reflexivity.
  - reflexivity.
  - reflexivity.
  - reflexivity.
Defined.

(** ** The lock and the exit code *)

Section Orchestrator.

Variable E : Env.
Variable G : Globals.

Lemma TryLock_free (w : World) :
  lockFault E (lockfile E G) = None → lockfile E G ∉ held w →
  TryLock E (lockfile E G) w = (Val (true, None), afterTryLock E G w).
Proof.
  intros Hfault Hfree. unfold TryLock. rewrite Hfault.
  by rewrite bool_decide_eq_false_2.
Qed.

Lemma obtainLock_locked (w : World) :
  lockFault E (lockfile E G) = None → lockfile E G ∉ held w →
  obtainLock E G w
  = defer (osRemove (lockfile E G))
      (defer (Unlock (lockfile E G))
         (err <- performBackup E G ;;
          match err with
          | Some _ => ret 500%Z
          | None => ret 0%Z
          end)) (afterTryLock E G w).
Proof.
  intros Hfault Hfree. unfold obtainLock.
  by rewrite (bind_val _ _ _ _ _ (TryLock_free w Hfault Hfree)).
Qed.

Lemma obtainLock_fault (w : World) (e : error) :
  lockFault E (lockfile E G) = Some e →
  obtainLock E G w = (logError E None ("Error: " +:+ e) ;;; ret 201%Z) w.
Proof.
  intros Hfault. unfold obtainLock.
  assert (TryLock E (lockfile E G) w = (Val (false, Some e), w)) as Htry
    by (unfold TryLock; by rewrite Hfault).
  by rewrite (bind_val _ _ _ _ _ Htry).
Qed.

Lemma obtainLock_busy (w : World) :
  lockFault E (lockfile E G) = None → lockfile E G ∈ held w →
  ∃ w0, invs w0 = invs w ∧
    obtainLock E G w
    = (logError E None
         ("Error: " +:+ "unable to obtain lock using lockfile: " +:+ lockfile E G) ;;;
       ret 200%Z) w0.
Proof.
  intros Hfault Hheld. unfold obtainLock.
  assert (∃ w0, invs w0 = invs w
                ∧ TryLock E (lockfile E G) w = (Val (false, None), w0))
    as (w0 & Hinv & Htry).
  { unfold TryLock. rewrite Hfault. rewrite bool_decide_eq_true_2 by done.
    eexists. split; [|reflexivity]. reflexivity. }
  exists w0. split; [done|]. by rewrite (bind_val _ _ _ _ _ Htry).
Qed.


Lemma obtainLock_result (w : World) :
  lockFault E (lockfile E G) = None → lockfile E G ∉ held w →
  (obtainLock E G w).1
  = match (performBackup E G (afterTryLock E G w)).1 with
    | Val None => Val 0%Z
    | Val (Some _) => Val 500%Z
    | Panic msg => Panic msg
    end.
Proof.
  intros Hfault Hfree. rewrite obtainLock_locked by done.
  unfold defer, bind.
  destruct (performBackup E G (afterTryLock E G w)) as [[[e|]|msg] w2]; done.
Qed.

(** C3 (as amended): an error of the lock mechanism gives 201 and a lock
    held by another process gives 200, in both cases without any external
    call; once the lock is taken the code is 0 when [performBackup]
    returns no error and 500 when it returns one, so, on a system without
    faults and with the check loop within [pruneInfo], 0 when every
    selected operation succeeds and 500 when one fails.  [main] passes
    this value to [os.Exit] unchanged. *)
Theorem exit_codes (w : World) :
  let out := obtainLock E G w in
  (∀ e, lockFault E (lockfile E G) = Some e →
     out.1 = Val 201%Z ∧ invs out.2 = invs w)
  ∧ (lockFault E (lockfile E G) = None → lockfile E G ∈ held w →
       out.1 = Val 200%Z ∧ invs out.2 = invs w)
  ∧ (lockFault E (lockfile E G) = None → lockfile E G ∉ held w →
       out.1 = match (performBackup E G (afterTryLock E G w)).1 with
               | Val None => Val 0%Z
               | Val (Some _) => Val 500%Z
               | Panic msg => Panic msg
               end)
  ∧ (lockFault E (lockfile E G) = None → lockfile E G ∉ held w →
     no_faults E → checkOverrun G = false →
       out.1 = match (failFast E G (invs w) (plan G)).2 with
               | None => Val 0%Z
               | Some _ => Val 500%Z
               end)
  ∧ (cmdBackup G || cmdPrune G || cmdCheck G = true → main E G w = out).
Proof.
  cbv zeta. repeat apply conj.
  - intros e Hfault. rewrite (obtainLock_fault w e Hfault).
    destruct (quiet_logError E None ("Error: " +:+ e) w) as ([] & w1 & Hrun & Hinv).
    rewrite (bind_val _ _ _ _ _ Hrun). by split.
  - intros Hfault Hheld.
    destruct (obtainLock_busy w Hfault Hheld) as (w0 & Hinv0 & ->).
    destruct (quiet_logError E None
                ("Error: " +:+ "unable to obtain lock using lockfile: " +:+ lockfile E G) w0)
      as ([] & w1 & Hrun & Hinv).
    rewrite (bind_val _ _ _ _ _ Hrun). split; [done|]. simpl. congruence.
  - apply obtainLock_result.
  - intros Hfault Hfree Hnf Hover. rewrite obtainLock_result by done.
    destruct (performBackup_exact E G (afterTryLock E G w) Hnf Hover) as [-> _].
    change (invs (afterTryLock E G w)) with (invs w).
    by destruct (failFast E G (invs w) (plan G)).2.
  - intros Hsel. unfold main.
    by destruct (cmdBackup G), (cmdPrune G), (cmdCheck G).
Qed.

(** C4: when the lock is taken, then however the run ends (exit code 0,
    exit code 500, or a panic), afterwards the lock is not held and the
    lock file does not exist. *)
Theorem lock_released_on_every_path (w : World) :
  lockFault E (lockfile E G) = None → lockfile E G ∉ held w →
  let out := obtainLock E G w in
  (lockfile E G ∉ held out.2)
  ∧ fs out.2 !! (lockfile E G) = None
  ∧ (out.1 = Val 0%Z ∨ out.1 = Val 500%Z ∨ ∃ msg, out.1 = Panic msg).
Proof.
  intros Hfault Hfree. cbv zeta. rewrite obtainLock_locked by done.
  unfold defer, bind, osRemove, Unlock, modify.
  destruct (performBackup E G (afterTryLock E G w)) as [[[e|]|msg] w2]; simpl.
  all: split; [intros [_ Hn]%elem_of_difference; by apply Hn, elem_of_singleton|].
  all: split; [apply lookup_delete_eq|]; eauto.
Qed.

(** When the check list is longer than the prune list and every command
    before the missing index succeeds, the run panics. *)
Lemma performBackup_overrun (w : World) :
  no_faults E → checkOverrun G = true →
  (failFast E G (invs w) (reachable G)).2 = None →
  ∃ msg, (performBackup E G w).1 = Panic msg.
Proof.
  intros Hnf Hover Hff.
  destruct (performBackup_cases E G w) as [(e & _ & _ & Hfault)|[_ Hres]]; [done|].
  by rewrite Hff, Hover in Hres.
Qed.

End Orchestrator.



(** C3, an instance: the lock is free, the system has no fault and the
    second call of the engine fails. *)
Lemma exit_codes_witness :
  (obtainLock (Demo.env (Some 1)) (Demo.globals true true true Demo.threeBackups)
     Demo.world).1 = Val 500%Z.
Proof.
  destruct (exit_codes (Demo.env (Some 1)) (Demo.globals true true true Demo.threeBackups)
              Demo.world) as (_ & _ & _ & Hcode & _).
  apply Hcode.
  - reflexivity.
  - apply not_elem_of_empty.
  - intros p. repeat split.
  - reflexivity.
Defined.

(** C3, counterexample: the run takes the lock, the second call of the
    engine fails, and the value given to [os.Exit] is 500, not 1. *)
Lemma pipeline_failure_exits_500 :
  let E := Demo.env (Some 1) in
  let G := Demo.globals true true true Demo.threeBackups in
  lockFault E (lockfile E G) = None
  ∧ (lockfile E G ∉ held Demo.world)
  ∧ (failFast E G [] (plan G)).2 = Some "exit status 1"
  ∧ (main E G Demo.world).1 = Val 500%Z
  ∧ (main E G Demo.world).1 ≠ Val 1%Z.
Proof.
  cbv zeta. split; [reflexivity|]. split; [apply not_elem_of_empty|].
  split; [reflexivity|].
  assert ((main (Demo.env (Some 1)) (Demo.globals true true true Demo.threeBackups)
             Demo.world).1 = Val 500%Z) as Hmain by (vm_compute; reflexivity).
  split; [exact Hmain|]. rewrite Hmain. discriminate.
Qed.

(** C4, an instance: a run whose second call of the engine fails. *)
Lemma lock_released_on_every_path_witness :
  let E := Demo.env (Some 1) in
  let G := Demo.globals true true true Demo.threeBackups in
  (lockfile E G ∉ held (obtainLock E G Demo.world).2)
  ∧ fs (obtainLock E G Demo.world).2 !! (lockfile E G) = None
  ∧ ((obtainLock E G Demo.world).1 = Val 0%Z
     ∨ (obtainLock E G Demo.world).1 = Val 500%Z
     ∨ ∃ msg, (obtainLock E G Demo.world).1 = Panic msg).
Proof.
  apply (lock_released_on_every_path (Demo.env (Some 1))
           (Demo.globals true true true Demo.threeBackups) Demo.world).
  - reflexivity.
  - apply not_elem_of_empty.
Defined.

(** C9, at the failing input: with one prune operation on storage A and one
    check operation on storage B, the line that announces the check names
    storage A, and the call that follows checks storage B. *)
Theorem check_narration_names_prune_storage :
  let E := Demo.env None in
  let G := Demo.globals false false true Demo.checkOther in
  events (performBackup E G Demo.world).2
  = [EvStdout "13:01:01 Rotating log files";
     EvStdout "13:01:05 Beginning backup on 01-02-2018 13:01:03";
     EvStdout "13:01:08 Checking storage A";
     EvExec {| prog := "/bin/duplicacy";
               args := ["check"; "-storage"; "B"];
               dir := "/repo" |};
     EvStdout "13:01:13 Operations completed in 1s"].
Proof. vm_compute. reflexivity. Qed.

(** C10, at the failing input: with one check operation and no prune
    operation, the check loop reads [pruneInfo[0]] and the run panics before
    any external call; the deferred release still runs. *)
Theorem check_loop_index_out_of_range :
  let E := Demo.env None in
  let G := Demo.globals false false true Demo.checkOnly in
  checkOverrun G = true
  ∧ (performBackup E G Demo.world).1 = Panic "index out of range"
  ∧ invs (performBackup E G Demo.world).2 = []
  ∧ (main E G Demo.world).1 = Panic "index out of range".
Proof. vm_compute. repeat split; reflexivity. Qed.

(** ** The other exit paths, on the concrete installation *)

(** All three phases succeed: exit code 0, every command called in order,
    the lock file gone. *)
Example all_phases_succeed :
  let E := Demo.env None in
  let G := Demo.globals true true true Demo.threeBackups in
  (main E G Demo.world).1 = Val 0%Z
  ∧ map args (invs (main E G Demo.world).2)
    = [["backup"; "-storage"; "A"; "-threads"; "4"; "-stats"];
       ["backup"; "-storage"; "B"; "-threads"; "4"; "-stats"];
       ["backup"; "-storage"; "C"; "-threads"; "4"; "-stats"];
       ["prune"; "-all"; "-storage"; "A"; "7d"; "30:7"];
       ["check"; "-storage"; "A"; "-all"]]
  ∧ fs (main E G Demo.world).2 !! "/lock/job.lock" = None.
Proof. vm_compute. repeat split; reflexivity. Qed.

(** The lock is held by another process: exit code 200, no rotation and no
    external call. *)
Example lock_contention :
  let E := Demo.env None in
  let G := Demo.globals true true true Demo.threeBackups in
  (main E G Demo.worldLocked).1 = Val 200%Z
  ∧ invs (main E G Demo.worldLocked).2 = []
  ∧ fs (main E G Demo.worldLocked).2 !! "/log/job.log" = Some "old"
  ∧ fs (main E G Demo.worldLocked).2 !! "/log/job.log.1.gz" = Some "GZg1".
Proof. vm_compute. repeat split; reflexivity. Qed.

(** The lock file cannot be opened: exit code 201. *)
Example lock_mechanism_error :
  let G := Demo.globals true true true Demo.threeBackups in
  (main Demo.envLockFault G Demo.world).1 = Val 201%Z
  ∧ events (main Demo.envLockFault G Demo.world).2
    = [EvStderr "Error: permission denied"].
Proof. vm_compute. repeat split; reflexivity. Qed.

(** A write of the archive fails during the copy, when three bytes of the
    stream are in the file: the rotation returns the error, generation 1
    holds these bytes, and the run ends with exit code 500 before any
    external call. *)
Example rotation_write_failure :
  let E := Demo.envFault None None (Some (WriteFailed 3 "no space left on device")) in
  let G := Demo.globals true true true Demo.threeBackups in
  (rotateLogFiles E G Demo.world).1 = Val (Some "no space left on device")
  ∧ fs (rotateLogFiles E G Demo.world).2 !! "/log/job.log.1.gz" = Some "GZo"
  ∧ (main E G Demo.world).1 = Val 500%Z
  ∧ invs (main E G Demo.world).2 = [].
Proof. vm_compute. repeat split; reflexivity. Qed.

(** Reading the log fails after two bytes: the rotation returns the error
    and generation 1 holds the stream of these two bytes. *)
Example rotation_read_failure :
  let E := Demo.envFault None None (Some (ReadFailed 2 "input/output error")) in
  let G := Demo.globals true true true Demo.threeBackups in
  (rotateLogFiles E G Demo.world).1 = Val (Some "input/output error")
  ∧ fs (rotateLogFiles E G Demo.world).2 !! "/log/job.log.1.gz" = Some "GZol"
  ∧ (main E G Demo.world).1 = Val 500%Z.
Proof. vm_compute. repeat split; reflexivity. Qed.

(** No phase is selected: [main] exits with code 1 without taking the lock. *)
Example nothing_selected :
  let E := Demo.env None in
  let G := Demo.globals false false false Demo.threeBackups in
  (main E G Demo.world).1 = Val 1%Z
  ∧ fs (main E G Demo.world).2 !! "/lock/job.lock" = None
  ∧ fs (main E G Demo.world).2 !! "/log/job.log" = Some "old".
Proof. vm_compute. repeat split; reflexivity. Qed.

(** * Further properties of the program *)

(** ** The generations after a rotation *)

Section RotationPointwise.

Variable E : Env.
Variable G : Globals.

(** Whatever the outcome of the rotation, every generation [j] with
    [2 ≤ j ≤ N-2] holds afterwards what generation [j-1] held before, or is
    absent when that one was.  When there is no current log, generation 1
    is absent afterwards if [N] is 3 or more, and keeps what it held if [N]
    is 2 or less, where nothing is renamed. *)
Theorem rotation_shifts_generations (w : World) :
  depth_in_range G →
  let root := logFileRoot E G in
  let N := globalLogFileCount G in
  let out := rotateLogFiles E G w in
  (∀ j : nat, 2 ≤ j → (Z.of_nat j ≤ N - 2)%Z →
     fs out.2 !! genPath root (Z.of_nat j) = fs w !! genPath root (Z.of_nat (j - 1)))
  ∧ ((3 ≤ N)%Z → fs w !! root = None → fs out.2 !! genPath root 1 = None)
  ∧ ((N ≤ 2)%Z → fs w !! root = None →
     fs out.2 !! genPath root 1 = fs w !! genPath root 1).
Proof.
  intros HN root N out. subst out.
  destruct (shiftGenerations_pointwise E G N (fs w)) as (_ & Hfirst & Hmid & _).
  destruct (rotateLogFiles_fs E G w HN) as [->|(z & Hlog & ->)];
    (split; [|split]).
  - intros j Hj HjN. apply Hmid. lia.
  - intros H3 _. apply Hfirst. lia.
  - intros H2 _. unfold shiftGenerations. fold N.
    by replace (Z.to_nat (N - 2)) with 0 by lia.
  - intros j Hj HjN. rewrite lookup_insert_ne; [apply Hmid; lia|].
    rewrite <- genPath_1. apply (genPath_nat_ne _ 1 j). lia.
  - intros _ Hno. fold root in Hlog. rewrite Hno in Hlog. by destruct Hlog.
  - intros _ Hno. fold root in Hlog. rewrite Hno in Hlog. by destruct Hlog.
Qed.

(** The oldest generation kept, [N-1], holds after the rotation what
    generation [N-2] held, the former content being dropped; when generation
    [N-2] was missing it keeps its own content. *)
Theorem rotation_oldest_generation (w : World) :
  depth_in_range G → (3 ≤ globalLogFileCount G)%Z →
  let root := logFileRoot E G in
  let N := globalLogFileCount G in
  fs (rotateLogFiles E G w).2 !! genPath root (N - 1)
  = match fs w !! genPath root (N - 2) with
    | Some c => Some c
    | None => fs w !! genPath root (N - 1)
    end.
Proof.
  intros HN H3 root N.
  destruct (shiftGenerations_pointwise E G N (fs w)) as (_ & _ & _ & Hlast).
  replace (N - 1)%Z with (Z.of_nat (S (Z.to_nat (N - 2)))) by lia.
  replace (N - 2)%Z with (Z.of_nat (Z.to_nat (N - 2))) at 2 by lia.
  destruct (rotateLogFiles_fs E G w HN) as [->|(z & _ & ->)].
  - apply Hlast. lia.
  - rewrite lookup_insert_ne; [apply Hlast; lia|].
    rewrite <- genPath_1. apply (genPath_nat_ne _ 1 (S (Z.to_nat (N - 2)))). lia.
Qed.

Lemma rotateLogFiles_frame (w : World) (p : string) :
  depth_in_range G →
  p ≠ genPath (logFileRoot E G) 1 →
  (∀ i : nat, 2 ≤ i → (Z.of_nat i ≤ globalLogFileCount G - 1)%Z →
              p ≠ genPath (logFileRoot E G) (Z.of_nat i)) →
  fs (rotateLogFiles E G w).2 !! p = fs w !! p.
Proof.
  intros HN Hp1 Hp.
  destruct (shiftGenerations_pointwise E G (globalLogFileCount G) (fs w))
    as (Hframe & _).
  assert (shiftGenerations (logFileRoot E G) (globalLogFileCount G) (fs w) !! p
          = fs w !! p) as Hsh.
  { apply Hframe. intros i Hi. destruct (decide (i = 1)) as [->|]; [done|].
    apply Hp; lia. }
  destruct (rotateLogFiles_fs E G w HN) as [->|(z & _ & ->)]; [done|].
  rewrite lookup_insert_ne; [done|]. by rewrite <- genPath_1.
Qed.

(** Whatever its outcome, the rotation changes no file but generation 1,
    which it writes at every depth, and the generations 2 to [N-1]: the
    current log keeps its content (it is neither removed nor emptied), and
    no generation [j] with [j ≥ 2] and [j ≥ N] is created or changed. *)
Theorem rotation_touches_only_generations (w : World) :
  depth_in_range G →
  let root := logFileRoot E G in
  let out := rotateLogFiles E G w in
  (∀ p, p ≠ genPath root 1 →
        (∀ i : nat, 2 ≤ i → (Z.of_nat i ≤ globalLogFileCount G - 1)%Z →
                    p ≠ genPath root (Z.of_nat i)) →
        fs out.2 !! p = fs w !! p)
  ∧ fs out.2 !! root = fs w !! root
  ∧ (∀ j : nat, 2 ≤ j → (globalLogFileCount G ≤ Z.of_nat j)%Z →
       fs out.2 !! genPath root (Z.of_nat j) = fs w !! genPath root (Z.of_nat j)).
Proof.
  intros HN root out.
  split; [intros p; by apply rotateLogFiles_frame|]. split.
  - apply rotateLogFiles_frame; [done| |]; intros; apply not_eq_sym, genPath_not_root.
  - intros j Hj HjN. apply rotateLogFiles_frame; [done| |].
    + apply (genPath_nat_ne _ j 1). lia.
    + intros i Hi HiN. apply genPath_nat_ne. lia.
Qed.

(** With a retention depth of 2 or less no generation is renamed: the
    compressed log replaces generation 1, whose former content is lost, and
    generation 1 is written even when the depth is 1 or 0. *)
Theorem rotation_small_depth (w : World) (B : string) :
  depth_in_range G → (globalLogFileCount G ≤ 2)%Z →
  fs w !! logFileRoot E G = Some B →
  openFault E (logFileRoot E G) = None →
  createFault E (logFileRoot E G +:+ ".1.gz") = None →
  copyFault E (logFileRoot E G) = None →
  closeFault E (logFileRoot E G +:+ ".1.gz") = None →
  (rotateLogFiles E G w).1 = Val None
  ∧ fs (rotateLogFiles E G w).2
    = <[logFileRoot E G +:+ ".1.gz"
        := gzipBytes E (logFileRoot E G +:+ ".1.gz") B]> (fs w).
Proof.
  intros HN H2 HB Ho Hc Hk Hcl.
  pose proof (rotateLogFiles_cases E G w HN) as H. cbv zeta in H.
  rewrite HB, Ho, Hc, Hk in H. unfold flushed in H. rewrite Hcl in H.
  unfold shiftGenerations in H.
  replace (Z.to_nat (globalLogFileCount G - 2)) with 0 in H by lia.
  exact H.
Qed.

(** The program drops the result of [archiver.Close()]: when the log is
    copied and the write fails as the gzip writer is closed, with [k] bytes
    of the stream in the file, rotation returns no error and generation 1
    holds these [k] bytes only. *)
Theorem close_failure_is_not_reported (w : World) (B : string) (k : nat) (e : error) :
  depth_in_range G →
  fs w !! logFileRoot E G = Some B →
  openFault E (logFileRoot E G) = None →
  createFault E (logFileRoot E G +:+ ".1.gz") = None →
  copyFault E (logFileRoot E G) = None →
  closeFault E (logFileRoot E G +:+ ".1.gz") = Some (k, e) →
  (rotateLogFiles E G w).1 = Val None
  ∧ fs (rotateLogFiles E G w).2 !! (logFileRoot E G +:+ ".1.gz")
    = Some (strings.take k (gzipBytes E (logFileRoot E G +:+ ".1.gz") B)).
Proof.
  intros HN HB Ho Hc Hk Hcl.
  pose proof (rotateLogFiles_cases E G w HN) as H. cbv zeta in H.
  rewrite HB, Ho, Hc, Hk in H. unfold flushed in H. rewrite Hcl in H.
  destruct H as [Hres Hfs]. split; [exact Hres|].
  rewrite Hfs. apply lookup_insert_eq.
Qed.

End RotationPointwise.

Lemma rotation_shifts_generations_witness :
  let G := Demo.globals true true true Demo.threeBackups in
  let out := rotateLogFiles (Demo.env None) G Demo.world in
  fs out.2 !! "/log/job.log.2.gz" = Some "GZg1".
Proof.
  intros G out.
  apply (proj1 (rotation_shifts_generations (Demo.env None) G Demo.world
                  ltac:(unfold depth_in_range; simpl; lia))
               2 ltac:(lia) ltac:(simpl; lia)).
Defined.

Lemma rotation_oldest_generation_witness :
  let G := Demo.globals true true true Demo.threeBackups in
  let out := rotateLogFiles (Demo.env None) G Demo.world in
  fs out.2 !! "/log/job.log.4.gz" = Some "GZg3".
Proof.
  intros G out.
  apply (rotation_oldest_generation (Demo.env None) G Demo.world
           ltac:(unfold depth_in_range; simpl; lia) ltac:(simpl; lia)).
Defined.

Lemma rotation_touches_only_generations_witness :
  let G := Demo.globals true true true Demo.threeBackups in
  let out := rotateLogFiles (Demo.env None) G Demo.world in
  fs out.2 !! "/log/job.log" = Some "old".
Proof.
  intros G out.
  apply (proj1 (proj2 (rotation_touches_only_generations (Demo.env None) G Demo.world
                         ltac:(unfold depth_in_range; simpl; lia)))).
Defined.

Lemma rotation_small_depth_witness :
  let G := DemoMain.globalsDepth 1 in
  let out := rotateLogFiles (Demo.env None) G Demo.world in
  out.1 = Val None
  ∧ fs out.2 = <["/log/job.log.1.gz" := "GZold"]> (fs Demo.world).
Proof.
  intros G out.
  apply (rotation_small_depth (Demo.env None) G Demo.world "old").
  - unfold depth_in_range. simpl. lia.
  - simpl. lia.
  - vm_compute. reflexivity.
  - reflexivity.
  - reflexivity.
  - reflexivity.
  - reflexivity.
Defined.

Lemma close_failure_is_not_reported_witness :
  let E := Demo.envCloseFault 3 in
  let G := Demo.globals true true true Demo.threeBackups in
  (rotateLogFiles E G Demo.world).1 = Val None
  ∧ fs (rotateLogFiles E G Demo.world).2 !! "/log/job.log.1.gz" = Some "GZo".
Proof.
  intros E G.
  apply (close_failure_is_not_reported E G Demo.world "old" 3
           "write /log/job.log.1.gz: no space left on device").
  - unfold depth_in_range. simpl. lia.
  - vm_compute. reflexivity.
  - reflexivity.
  - reflexivity.
  - reflexivity.
  - reflexivity.
Defined.

(** ** Computations that keep a relation between the worlds *)

Section Respects.

Variable R : World → World → Prop.
Hypothesis R_refl : ∀ w, R w w.
Hypothesis R_trans : ∀ w1 w2 w3, R w1 w2 → R w2 w3 → R w1 w3.

Lemma respects_ret {A} (a : A) : respects R (ret a).
Proof using R_refl. intros w. apply R_refl. Qed.

Lemma respects_panic {A} msg : respects R (@panic A msg).
Proof using R_refl. intros w. apply R_refl. Qed.

Lemma respects_gets {A} (f : World → A) : respects R (gets f).
Proof using R_refl. intros w. apply R_refl. Qed.

Lemma respects_modify (f : World → World) :
  (∀ w, R w (f w)) → respects R (modify f).
Proof. intros Hf w. apply Hf. Qed.

Lemma respects_bind {A B} (c : M A) (k : A → M B) :
  respects R c → (∀ a, respects R (k a)) → respects R (bind c k).
Proof using R_trans.
  intros Hc Hk w. specialize (Hc w). unfold bind.
  destruct (c w) as [[a|msg] w1]; simpl in *; [|done].
  eapply R_trans; [exact Hc|apply Hk].
Qed.

Lemma respects_defer {A} (cleanup : M unit) (body : M A) :
  respects R body → respects R cleanup → respects R (defer cleanup body).
Proof using R_trans.
  intros Hb Hc w. specialize (Hb w). unfold defer.
  destruct (body w) as [r w1]. simpl in *.
  eapply R_trans; [exact Hb|apply Hc].
Qed.

Lemma respects_forEach {A} (xs : list A) (body : A → M (option error)) :
  (∀ x, respects R (body x)) → respects R (forEach xs body).
Proof using R_refl R_trans.
  intros Hbody. induction xs as [|x xs IH]; simpl; [apply respects_ret|].
  apply respects_bind; [apply Hbody|]. intros [e|]; [apply respects_ret|apply IH].
Qed.

Lemma respects_forLines (ls : list string) (f : string → M unit) :
  (∀ l, respects R (f l)) → respects R (forLines ls f).
Proof using R_refl R_trans.
  intros Hf. induction ls as [|l ls IH]; simpl; [apply respects_ret|].
  apply respects_bind; [apply Hf|]. intros _. apply IH.
Qed.

Lemma respects_renameLoop root (i : nat) :
  (∀ a b, respects R (osRename a b)) → respects R (renameLoop root i).
Proof using R_refl R_trans.
  intros Hre. induction i as [|i IH]; simpl; [apply respects_ret|].
  apply respects_bind; [apply Hre|]. intros _. apply IH.
Qed.

End Respects.

Create HintDb program_steps.
#[local] Hint Unfold loggerPrintln Fprintln osRename osRemove gzipNewWriter
  archiverSetName archiverClose fileClose ioCopy Executor runCommand backupStep copyStep
  pruneStep checkStep runPhases orReturn forRange index osStatNotExist
  rotateLogFiles performBackup : program_steps.

Create HintDb log_sinks.
#[local] Hint Unfold logFMessage logError logMessage : log_sinks.

(** The structure of a computation is taken apart down to the steps that
    change the world, which [leaf] is to settle; [pre] is tried first, for
    the parts that are to be taken whole. *)
Ltac respects_with Hrefl Htrans pre leaf :=
  repeat first
    [ pre
    | lazymatch goal with
      | |- respects _ (ret _) => apply (respects_ret _ Hrefl)
      | |- respects _ (panic _) => apply (respects_panic _ Hrefl)
      | |- respects _ (gets _) => apply (respects_gets _ Hrefl)
      | |- respects _ (bind _ _) => apply (respects_bind _ Htrans); [|intros ?]
      | |- respects _ (defer _ _) => apply (respects_defer _ Htrans)
      | |- respects _ (forEach _ _) => apply (respects_forEach _ Hrefl Htrans); intros ?
      | |- respects _ (forLines _ _) => apply (respects_forLines _ Hrefl Htrans); intros ?
      | |- respects _ (renameLoop _ _) =>
          apply (respects_renameLoop _ Hrefl Htrans); intros ? ?
      | |- respects _ (modify _) => apply respects_modify; intros ?; leaf
      | |- respects _ (match ?x with _ => _ end) => destruct x
      | |- respects _ (timeNow _) => intros ?; cbv [timeNow]; leaf
      | |- respects _ (osOpen _ _) => intros ?; cbv [osOpen]; repeat case_match; leaf
      | |- respects _ (osCreate _ _) => intros ?; cbv [osCreate]; repeat case_match; leaf
      end
    | progress autounfold with program_steps ].

(** *** The locks *)

Lemma same_held_refl w : same_held w w.
Proof. reflexivity. Qed.

Lemma same_held_trans w1 w2 w3 : same_held w1 w2 → same_held w2 w3 → same_held w1 w3.
Proof. unfold same_held. congruence. Qed.

Section Locks.

Variable E : Env.
Variable G : Globals.

Lemma performBackup_same_held : respects same_held (performBackup E G).
Proof.
  autounfold with log_sinks program_steps.
  respects_with same_held_refl same_held_trans fail ltac:(reflexivity).
Qed.

Lemma obtainLock_same_held (w : World) : held (obtainLock E G w).2 = held w.
Proof.
  destruct (lockFault E (lockfile E G)) as [e|] eqn:Hfault.
  { rewrite (obtainLock_fault E G w e Hfault).
    destruct (logFMessage_run E Stderr None ("Error: " +:+ e) w)
      as (w1 & Hrun & _ & _ & Hheld).
    unfold logError. by rewrite (bind_val _ _ _ _ _ Hrun). }
  destruct (decide (lockfile E G ∈ held w)) as [Hbusy|Hfree].
  - unfold obtainLock, bind at 1, TryLock. rewrite Hfault.
    rewrite bool_decide_eq_true_2 by done.
    set (w0 := set_fs _ w).
    destruct (logFMessage_run E Stderr None
                ("Error: " +:+ "unable to obtain lock using lockfile: " +:+ lockfile E G) w0)
      as (w1 & Hrun & _ & _ & Hheld).
    unfold logError. by rewrite (bind_val _ _ _ _ _ Hrun).
  - rewrite obtainLock_locked by done.
    unfold defer, osRemove, Unlock, modify.
    set (body := bind _ _).
    assert (respects same_held body) as Hbody.
    { apply (respects_bind _ same_held_trans); [apply performBackup_same_held|].
      intros [e|]; apply (respects_ret _ same_held_refl). }
    specialize (Hbody (afterTryLock E G w)). unfold same_held in Hbody.
    destruct (body (afterTryLock E G w)) as [r w2]. simpl in *. rewrite Hbody.
    apply set_eq. intros x.
    rewrite elem_of_difference, elem_of_union, elem_of_singleton.
    split; [intros [[->|Hx] Hne]; done|].
    intros Hx. split; [by right|]. by intros ->.
Qed.

(** A run leaves the locks as it found them, however it ends: a lock it
    took is released, and a lock held by another process stays held. *)
Theorem run_leaves_locks_as_found (w : World) :
  held (obtainLock E G w).2 = held w ∧ held (main E G w).2 = held w.
Proof.
  split; [apply obtainLock_same_held|].
  unfold main.
  destruct (negb (cmdBackup G) && negb (cmdPrune G) && negb (cmdCheck G));
    [|apply obtainLock_same_held].
  destruct (logFMessage_run E Stderr None
              "Error: No operations to perform (specify -b, -p, -c, or -a)" w)
    as (w1 & Hrun & _ & _ & Hheld).
  unfold logError. by rewrite (bind_val _ _ _ _ _ Hrun).
Qed.

(** After a run that took the lock, the lock is free again: the next run of
    the same configuration does not end on contention. *)
Theorem next_run_takes_the_lock (w : World) :
  lockFault E (lockfile E G) = None → lockfile E G ∉ held w →
  let w1 := (obtainLock E G w).2 in
  (obtainLock E G w1).1
  = match (performBackup E G (afterTryLock E G w1)).1 with
    | Val None => Val 0%Z
    | Val (Some _) => Val 500%Z
    | Panic msg => Panic msg
    end
  ∧ (obtainLock E G w1).1 ≠ Val 200%Z.
Proof.
  intros Hfault Hfree w1.
  assert (lockfile E G ∉ held w1) as Hfree1
    by (subst w1; by rewrite obtainLock_same_held).
  rewrite (obtainLock_result E G w1 Hfault Hfree1). split; [done|].
  by destruct (performBackup E G (afterTryLock E G w1)).1 as [[e|]|msg].
Qed.

Lemma logFMessage_None_frame dst msg (w : World) :
  fs (logFMessage E dst None msg w).2 = fs w
  ∧ held (logFMessage E dst None msg w).2 = held w
  ∧ gzbuf (logFMessage E dst None msg w).2 = gzbuf w.
Proof. by destruct dst. Qed.



End Locks.

Lemma next_run_takes_the_lock_witness :
  let E := Demo.env (Some 1) in
  let G := Demo.globals true true true Demo.threeBackups in
  (obtainLock E G (obtainLock E G Demo.world).2).1 ≠ Val 200%Z.
Proof.
  intros E G.
  apply (proj2 (next_run_takes_the_lock E G Demo.world eq_refl
                  ltac:(apply not_elem_of_empty))).
Defined.


(** ** Exit codes *)

Lemma exits_within_ret (L : list Z) (code : Z) : code ∈ L → exits_within L (ret code).
Proof. intros Hin w code' [= <-]. exact Hin. Qed.

Lemma exits_within_bind {A} (L : list Z) (c : M A) (k : A → M Z) :
  (∀ a, exits_within L (k a)) → exits_within L (bind c k).
Proof.
  intros Hk w code. unfold bind.
  destruct (c w) as [[a|msg] w1]; [apply Hk|done].
Qed.

Lemma exits_within_defer (L : list Z) (cleanup : M unit) (body : M Z) :
  exits_within L body → exits_within L (defer cleanup body).
Proof.
  intros Hb w code. unfold defer. specialize (Hb w code).
  by destruct (body w) as [r w1].
Qed.

Lemma exits_within_weaken (L L' : list Z) (c : M Z) :
  L ⊆ L' → exits_within L c → exits_within L' c.
Proof. intros Hsub Hc w code Hrun. apply Hsub. by apply (Hc w). Qed.

Ltac known_code := unfold exitCodes; rewrite !elem_of_cons; tauto.

Section ExitCodes.

Variable E : Env.
Variable G : Globals.

Lemma obtainLock_exits : exits_within [0; 200; 201; 500]%Z (obtainLock E G).
Proof.
  unfold obtainLock. apply exits_within_bind. intros [locked [e|]].
  - destruct locked; apply exits_within_bind; intros _;
      apply exits_within_ret; known_code.
  - destruct locked.
    + do 2 apply exits_within_defer. apply exits_within_bind.
      intros [e|]; apply exits_within_ret; known_code.
    + apply exits_within_bind; intros _; apply exits_within_ret; known_code.
Qed.

Lemma main_exits : exits_within exitCodes (main E G).
Proof.
  unfold main.
  destruct (negb (cmdBackup G) && negb (cmdPrune G) && negb (cmdCheck G)).
  - apply exits_within_bind; intros _; apply exits_within_ret; known_code.
  - apply (exits_within_weaken [0; 200; 201; 500]%Z); [|apply obtainLock_exits].
    intros x. unfold exitCodes. rewrite !elem_of_cons. tauto.
Qed.

(** A run panics only when the check phase is selected with a check list
    longer than the prune list and every command before the missing index
    has succeeded; on a system without faults it then does panic. *)
Theorem performBackup_panics_iff (w : World) :
  ((∃ msg, (performBackup E G w).1 = Panic msg) →
     checkOverrun G = true ∧ (failFast E G (invs w) (reachable G)).2 = None)
  ∧ (no_faults E → checkOverrun G = true →
       (failFast E G (invs w) (reachable G)).2 = None →
       ∃ msg, (performBackup E G w).1 = Panic msg).
Proof.
  split.
  - intros [msg Hpanic].
    destruct (performBackup_cases E G w) as [(e & Hres & _)|[_ Hres]];
      [congruence|].
    destruct (failFast E G (invs w) (reachable G)).2; [congruence|].
    destruct (checkOverrun G); [done|congruence].
  - apply performBackup_overrun.
Qed.

End ExitCodes.

Lemma performBackup_panics_iff_witness :
  ∃ msg, (performBackup (Demo.env None)
            (Demo.globals false false true Demo.checkOnly) Demo.world).1 = Panic msg.
Proof.
  apply (proj2 (performBackup_panics_iff (Demo.env None)
                  (Demo.globals false false true Demo.checkOnly) Demo.world)).
  - intros p. repeat split.
  - reflexivity.
  - reflexivity.
Defined.

(** ** The start of [main] *)

Section Entry.

Variable K : Collaborators.
Variable E : Env.

Lemma mainEntry_exits (cl : CommandLine) : exits_within exitCodes (mainEntry K E cl).
Proof.
  unfold mainEntry.
  destruct (negb (length (positional cl) =? 0)).
  { apply exits_within_bind; intros _; apply exits_within_ret; known_code. }
  destruct (optVersion cl).
  { apply exits_within_bind; intros _; apply exits_within_ret; known_code. }
  apply exits_within_bind; intros _.
  apply exits_within_bind; intros [settings|e]; [|apply exits_within_ret; known_code].
  destruct (optTestMail cl).
  { do 2 (apply exits_within_bind; intros _). apply exits_within_ret; known_code. }
  destruct (String.eqb (optConfig cl) EmptyString).
  { apply exits_within_bind; intros _; apply exits_within_ret; known_code. }
  apply exits_within_bind; intros [cfg|e]; [|apply exits_within_ret; known_code].
  apply main_exits.
Qed.

(** Whatever the command line, the configuration, the system and the other
    files of the repository do, a run that ends by [os.Exit] ends with one
    of the codes 0, 1, 2, 200, 201 and 500; from [obtainLock] on, with one
    of 0, 200, 201 and 500. *)
Theorem exit_codes_are_known (G : Globals) (cl : CommandLine) (w : World) (code : Z) :
  ((mainEntry K E cl w).1 = Val code → code ∈ exitCodes)
  ∧ ((main E G w).1 = Val code → code ∈ exitCodes)
  ∧ ((obtainLock E G w).1 = Val code → code ∈ [0; 200; 201; 500]%Z).
Proof.
  split; [apply mainEntry_exits|]. split; [apply main_exits|apply obtainLock_exits].
Qed.

(** Before anything is loaded: arguments left over after the flags end the
    run with code 2 and an error on the error console, whatever the flags;
    otherwise [-version] ends it with code 0 after one line on the standard
    console, whatever the other flags, and adds nothing to [mailBody].  In
    both cases no file and no lock is touched. *)
Theorem exits_before_configuration (cl : CommandLine) (w : World) :
  let out := mainEntry K E cl w in
  (positional cl ≠ [] →
     out.1 = Val 2%Z
     ∧ events out.2
       = events w ++ [EvStderr ("Error: Unrecognized arguments specified on command line: "
                                +:+ sprintSlice (positional cl))]
     ∧ fs out.2 = fs w ∧ held out.2 = held w)
  ∧ (positional cl = [] → optVersion cl = true →
     out.1 = Val 0%Z
     ∧ events out.2
       = events w ++ [EvStdout ("Version: " +:+ versiontext K
                                +:+ ", Git Hash: " +:+ githash K)]
     ∧ mailBody out.2 = mailBody w
     ∧ fs out.2 = fs w ∧ held out.2 = held w).
Proof.
  cbv zeta. unfold mainEntry. split.
  - intros Hargs. destruct (positional cl) as [|a l] eqn:Hpos; [done|].
    simpl negb. cbv iota. by repeat split.
  - intros -> ->. by repeat split.
Qed.

Lemma returns_testMessage subject body complaint :
  (∀ s b, returns (sendTestMessage K s b)) →
  returns (testMessage K subject body complaint).
Proof.
  intros Hsend w. unfold testMessage.
  destruct (Hsend subject [body] w) as (err & w1 & Hrun).
  rewrite (bind_val _ _ _ _ _ Hrun). destruct err; by eexists _, _.
Qed.

(** In the mode that sends the test messages the run ends with code 1 once
    the global configuration has loaded, whether the two messages could be
    sent or not. *)
Theorem test_mail_exits_1 (cl : CommandLine) (w : World) :
  positional cl = [] → optVersion cl = false → optTestMail cl = true →
  loads K (optGlobalConfig cl) →
  (∀ s b, returns (sendTestMessage K s b)) →
  (mainEntry K E cl w).1 = Val 1%Z.
Proof.
  intros Hpos Hver Htest Hload Hsend. unfold mainEntry. rewrite Hpos, Hver. simpl.
  destruct (quiet_logMessage E None
              ("duplicacy-util running, version: " +:+ versiontext K
               +:+ ", Git Hash: " +:+ githash K) w) as ([] & w1 & Hrun1 & _).
  rewrite (bind_val _ _ _ _ _ Hrun1).
  destruct (Hload w1) as (s & w2 & Hrun2).
  rewrite (bind_val _ _ _ _ _ Hrun2). rewrite Htest.
  destruct (returns_testMessage
              "duplicacy-util: Backup results for configuration test (success)"
              "This is a test E-Mail message for a successful backup job"
              "Error sending succcess E-Mail message:" Hsend w2) as ([] & w3 & Hrun3).
  rewrite (bind_val _ _ _ _ _ Hrun3).
  destruct (returns_testMessage
              "duplicacy-util: Backup results for configuration test (FAILURE)"
              "This is a test E-Mail message for a failed backup job"
              "Error sending failed E-Mail message:" Hsend w3) as ([] & w4 & Hrun4).
  by rewrite (bind_val _ _ _ _ _ Hrun4).
Qed.

(** Without [-f] the run ends with code 2 once the global configuration has
    loaded: no configuration of a job is read. *)
Theorem missing_config_exits_2 (cl : CommandLine) (w : World) :
  positional cl = [] → optVersion cl = false → optTestMail cl = false →
  optConfig cl = EmptyString →
  loads K (optGlobalConfig cl) →
  (mainEntry K E cl w).1 = Val 2%Z.
Proof.
  intros Hpos Hver Htest Hcfg Hload. unfold mainEntry. rewrite Hpos, Hver. simpl.
  destruct (quiet_logMessage E None
              ("duplicacy-util running, version: " +:+ versiontext K
               +:+ ", Git Hash: " +:+ githash K) w) as ([] & w1 & Hrun1 & _).
  rewrite (bind_val _ _ _ _ _ Hrun1).
  destruct (Hload w1) as (s & w2 & Hrun2).
  rewrite (bind_val _ _ _ _ _ Hrun2). rewrite Htest, Hcfg.
  change (String.eqb EmptyString EmptyString) with true. cbv iota.
  destruct (quiet_logError E None
              "Error: Mandatory parameter -f is not specified (must be specified)" w2)
    as ([] & w3 & Hrun3 & _).
  by rewrite (bind_val _ _ _ _ _ Hrun3).
Qed.

(** [-a] stands for [-b -p -c]: the run with [-a] is the run with the three
    flags spelled out, whatever else is on the command line. *)
Theorem all_flag_is_the_three_flags (cl : CommandLine) (w : World) :
  optAll cl = true →
  mainEntry K E cl w = mainEntry K E (spellOutAll cl) w.
Proof.
  intros Hall. unfold mainEntry, globalsOf, spellOutAll. simpl. by rewrite Hall.
Qed.

(** When no operation is selected the run ends with code 1 before the lock:
    no file, lock or external program is touched. *)
Theorem nothing_selected_exits_1 (G : Globals) (w : World) :
  cmdBackup G = false → cmdPrune G = false → cmdCheck G = false →
  let out := main E G w in
  out.1 = Val 1%Z
  ∧ events out.2
    = events w ++ [EvStderr "Error: No operations to perform (specify -b, -p, -c, or -a)"]
  ∧ fs out.2 = fs w ∧ held out.2 = held w.
Proof.
  intros Hb Hp Hc. unfold main. rewrite Hb, Hp, Hc. by repeat split.
Qed.

End Entry.

Lemma exit_codes_are_known_witness : (500 ∈ exitCodes)%Z.
Proof.
  apply (proj1 (proj2 (exit_codes_are_known DemoMain.collaborators (Demo.env (Some 1))
                         (Demo.globals true true true Demo.threeBackups)
                         noFlags Demo.world 500%Z))).
  vm_compute. reflexivity.
Defined.

Lemma exits_before_configuration_witness :
  (mainEntry DemoMain.collaborators (Demo.env None) DemoMain.strayArgument
     Demo.world).1 = Val 2%Z
  ∧ (mainEntry DemoMain.collaborators (Demo.env None) DemoMain.versionOnly
       Demo.world).1 = Val 0%Z.
Proof.
  split.
  - apply (proj1 (proj1 (exits_before_configuration DemoMain.collaborators (Demo.env None)
                           DemoMain.strayArgument Demo.world) ltac:(discriminate))).
  - apply (proj1 (proj2 (exits_before_configuration DemoMain.collaborators (Demo.env None)
                           DemoMain.versionOnly Demo.world) eq_refl eq_refl)).
Defined.

Lemma test_mail_exits_1_witness :
  (mainEntry DemoMain.collaborators (Demo.env None) DemoMain.testMail
     Demo.world).1 = Val 1%Z.
Proof.
  apply (test_mail_exits_1 DemoMain.collaborators (Demo.env None)
           DemoMain.testMail Demo.world eq_refl eq_refl eq_refl).
  - intros w. by eexists _, _.
  - intros s b w. by eexists _, _.
Defined.

Lemma missing_config_exits_2_witness :
  (mainEntry DemoMain.collaborators (Demo.env None) noFlags Demo.world).1 = Val 2%Z.
Proof.
  apply (missing_config_exits_2 DemoMain.collaborators (Demo.env None)
           noFlags Demo.world eq_refl eq_refl eq_refl eq_refl).
  intros w. by eexists _, _.
Defined.

Lemma all_flag_is_the_three_flags_witness :
  mainEntry DemoMain.collaborators (Demo.env None) (DemoMain.commandLine "job" true)
    Demo.world
  = mainEntry DemoMain.collaborators (Demo.env None)
      (spellOutAll (DemoMain.commandLine "job" true)) Demo.world.
Proof.
  apply (all_flag_is_the_three_flags DemoMain.collaborators (Demo.env None)
           (DemoMain.commandLine "job" true) Demo.world eq_refl).
Defined.

Lemma nothing_selected_exits_1_witness :
  (main (Demo.env None) (Demo.globals false false false Demo.threeBackups)
     Demo.world).1 = Val 1%Z.
Proof.
  apply (proj1 (nothing_selected_exits_1 (Demo.env None)
                  (Demo.globals false false false Demo.threeBackups) Demo.world
                  eq_refl eq_refl eq_refl)).
Defined.

(** ** The console and the mail body *)

Lemma console_app evs1 evs2 : console (evs1 ++ evs2) = console evs1 ++ console evs2.
Proof.
  induction evs1 as [|ev evs1 IH]; [done|].
  destruct ev; simpl; by rewrite IH.
Qed.

Lemma transcript_refl w : transcript w w.
Proof. exists [], []. rewrite !app_nil_r. repeat split. constructor. Qed.

Lemma transcript_trans w1 w2 w3 : transcript w1 w2 → transcript w2 w3 → transcript w1 w3.
Proof.
  intros (evs1 & ms1 & He1 & Hm1 & H1) (evs2 & ms2 & He2 & Hm2 & H2).
  exists (evs1 ++ evs2), (ms1 ++ ms2).
  rewrite He2, He1, Hm2, Hm1, !app_assoc, console_app.
  repeat split. by apply Forall2_app.
Qed.

Ltac transcript_leaf :=
  eexists _, [];
  split; [first [reflexivity | symmetry; apply app_nil_r]|];
  split; [symmetry; apply app_nil_r | simpl; constructor].

Section Transcript.

Variable E : Env.
Variable G : Globals.

Lemma transcript_logFMessage dst logger msg :
  respects transcript (logFMessage E dst logger msg).
Proof.
  intros w.
  destruct (logFMessage_run E dst logger msg w) as (w' & Hrun & Hmail & Hev & _).
  rewrite Hrun. simpl. eexists [_], [_]. split; [exact Hev|]. split; [exact Hmail|].
  destruct dst; simpl; repeat constructor; eexists _, _; eauto.
Qed.

Ltac transcript_go :=
  respects_with transcript_refl transcript_trans
    ltac:(idtac; lazymatch goal with
          | |- respects _ (logFMessage _ _ _ _) => apply transcript_logFMessage
          | |- respects _ (logError _ _ _) => apply (transcript_logFMessage Stderr)
          | |- respects _ (logMessage _ _ _) => apply (transcript_logFMessage Stdout)
          end)
    ltac:(transcript_leaf).

Lemma transcript_rotateLogFiles : respects transcript (rotateLogFiles E G).
Proof. unfold rotateLogFiles. transcript_go. Qed.

Lemma transcript_runPhases logger : respects transcript (runPhases E G logger).
Proof. unfold runPhases. transcript_go. Qed.

Lemma transcript_performBackup_rest :
  respects transcript
    (orReturn (rotateLogFiles E G)
       (cr <- osCreate E (logFilePath E G) ;;
        match cr with
        | inr err => logError E None ("Error: " +:+ err) ;;; ret (Some err)
        | inl file => runPhases E G file
        end)).
Proof. unfold orReturn. transcript_go. Qed.

End Transcript.

(** After the line that announces the rotation, every console line of a run
    goes with an entry of [mailBody] and every entry with a console line, in
    the same order: the entry is the message behind a time of day, the
    standard console shows the entry and the error console the bare message.
    The line that announces the rotation is on the console only. *)
Theorem console_and_mail_go_together E G (w : World) :
  ∃ evs ms,
    events (performBackup E G w).2
    = events w
      ++ EvStdout (formatHMS (clock E (ticks w)) +:+ " " +:+ "Rotating log files") :: evs
    ∧ mailBody (performBackup E G w).2 = mailBody w ++ ms
    ∧ Forall2 mirror (console evs) ms.
Proof.
  rewrite performBackup_unfold.
  destruct (transcript_performBackup_rest E G (afterBanner E w))
    as (evs & ms & Hev & Hmail & Hmirror).
  exists evs, ms. rewrite Hev, Hmail. simpl. by rewrite <- app_assoc.
Qed.

(** ** Files *)

Lemma only_file_refl p w : only_file p w w.
Proof. by repeat split. Qed.

Lemma only_file_trans p w1 w2 w3 :
  only_file p w1 w2 → only_file p w2 w3 → only_file p w1 w3.
Proof.
  intros (He1 & Hm1 & Hh1 & Hf1) (He2 & Hm2 & Hh2 & Hf2).
  repeat split; [congruence..|]. intros q Hq. by rewrite Hf2, Hf1.
Qed.

Lemma same_file_refl p w : same_file p w w.
Proof. reflexivity. Qed.

Lemma same_file_trans p w1 w2 w3 : same_file p w1 w2 → same_file p w2 w3 → same_file p w1 w3.
Proof. unfold same_file. congruence. Qed.

Lemma append_nil_r (a : string) : a +:+ EmptyString = a.
Proof.
  induction a as [|x a IH]; [done|].
  change (String x (a +:+ EmptyString) = String x a). by rewrite IH.
Qed.

Lemma append_assoc (a b c : string) : (a +:+ b) +:+ c = a +:+ b +:+ c.
Proof.
  induction a as [|x a IH]; [done|].
  change (String x ((a +:+ b) +:+ c) = String x (a +:+ b +:+ c)). by rewrite IH.
Qed.

Lemma grown_refl p w : grown p w w.
Proof. split; [|done]. exists EmptyString. by rewrite append_nil_r. Qed.

Lemma grown_trans p w1 w2 w3 : grown p w1 w2 → grown p w2 w3 → grown p w1 w3.
Proof.
  intros [[s1 H1] Hs1] [[s2 H2] Hs2]. split; [|auto].
  exists (s1 +:+ s2). by rewrite H2, H1, append_assoc.
Qed.

Ltac same_file_leaf :=
  unfold same_file; simpl; first [reflexivity | by rewrite lookup_insert_ne].

Ltac only_file_leaf :=
  repeat split; try reflexivity; intros; simpl; by rewrite lookup_insert_ne.

Ltac grown_leaf :=
  split;
  [ eexists; simpl;
    first [rewrite lookup_insert_eq; reflexivity | symmetry; apply append_nil_r]
  | intros ?; simpl; first [rewrite lookup_insert_eq; by eexists | done] ].

Section Files.

Variable E : Env.
Variable G : Globals.

Lemma loggerPrintln_only_file logger line :
  respects (only_file logger) (loggerPrintln E logger line).
Proof.
  unfold loggerPrintln.
  respects_with (only_file_refl logger) (only_file_trans logger) fail
    ltac:(only_file_leaf).
Qed.

Lemma runPhases_same_file logger p :
  p ≠ logger → respects (same_file p) (runPhases E G logger).
Proof.
  intros Hp. autounfold with log_sinks program_steps.
  respects_with (same_file_refl p) (same_file_trans p) fail ltac:(same_file_leaf).
Qed.

Lemma runPhases_grown logger : respects (grown logger) (runPhases E G logger).
Proof.
  autounfold with log_sinks program_steps.
  respects_with (grown_refl logger) (grown_trans logger) fail ltac:(grown_leaf).
Qed.

Lemma logFMessage_Some_fs dst logger msg (w : World) :
  fs (logFMessage E dst (Some logger) msg w).2
  = <[logger := default EmptyString (fs w !! logger)
                +:+ formatHMS (clock E (ticks w)) +:+ " " +:+ msg +:+ nl]> (fs w).
Proof. by destruct dst. Qed.

Lemma Executor_only_file path cmdArgs cwd logger (w : World) :
  let inv := {| prog := path; args := cmdArgs; dir := cwd |} in
  let out := Executor E path cmdArgs cwd (loggerPrintln E logger) w in
  out.1 = Val (external E (invs w) inv).2
  ∧ events out.2 = events w ++ [EvExec inv]
  ∧ mailBody out.2 = mailBody w
  ∧ ∀ q, q ≠ logger → fs out.2 !! q = fs w !! q.
Proof.
  intros inv out. subst out. unfold Executor. fold inv.
  cbv [bind gets modify].
  set (w1 := set_events _ w).
  pose proof (respects_forLines _ (only_file_refl logger) (only_file_trans logger)
                (external E (invs w) inv).1 (loggerPrintln E logger)
                (loggerPrintln_only_file logger) w1) as (Hev & Hmail & _ & Hfs).
  destruct (quiet_forLines (external E (invs w) inv).1 (loggerPrintln E logger)
              (quiet_loggerPrintln E logger) w1) as ([] & w2 & Hrun & _).
  rewrite Hrun in *. simpl in *. by rewrite Hev, Hmail.
Qed.

(** What the engine prints reaches the log file only.  With the debug flag
    off, a command that succeeds adds nothing to the console and nothing to
    [mailBody]; a command that fails adds one error line to the error
    console and to [mailBody]; no file but the log is changed. *)
Theorem engine_output_reaches_only_the_log logger cmdArgs (w : World) :
  debugFlag G = false →
  let out := runCommand E G logger cmdArgs w in
  match (external E (invs w) (invocation G cmdArgs)).2 with
  | None =>
      out.1 = Val None
      ∧ events out.2 = events w ++ [EvExec (invocation G cmdArgs)]
      ∧ mailBody out.2 = mailBody w
  | Some e =>
      out.1 = Val (Some e)
      ∧ events out.2
        = events w ++ [EvExec (invocation G cmdArgs);
                       EvStderr ("Error executing command: " +:+ e)]
      ∧ ∃ t, mailBody out.2
             = mailBody w ++ [formatHMS t +:+ " " +:+ "Error executing command: " +:+ e]
  end
  ∧ ∀ q, q ≠ logger → fs out.2 !! q = fs w !! q.
Proof.
  intros Hdbg out. subst out.
  destruct (Executor_only_file (duplicacyPath G) cmdArgs (repoDir (configFile G)) logger w)
    as (Hres & Hev & Hmail & Hfs).
  fold (invocation G cmdArgs) in *.
  destruct (Executor E (duplicacyPath G) cmdArgs (repoDir (configFile G))
              (loggerPrintln E logger) w) as [r w1] eqn:Hexec.
  simpl in Hres, Hev, Hmail, Hfs. subst r.
  unfold runCommand. rewrite Hdbg.
  rewrite (bind_val _ _ w tt w eq_refl). rewrite (bind_val _ _ _ _ _ Hexec).
  destruct (external E (invs w) (invocation G cmdArgs)).2 as [e|].
  - destruct (logFMessage_run E Stderr (Some logger) ("Error executing command: " +:+ e) w1)
      as (w2 & Hrun & Hmail2 & Hev2 & _).
    pose proof (logFMessage_Some_fs Stderr logger ("Error executing command: " +:+ e) w1)
      as Hfs2.
    rewrite Hrun in Hfs2. simpl in Hfs2.
    unfold logError. rewrite (bind_val _ _ _ _ _ Hrun). simpl.
    split.
    + split; [done|]. split; [by rewrite Hev2, Hev, <- app_assoc|].
      eexists. by rewrite Hmail2, Hmail.
    + intros q Hq. by rewrite Hfs2, lookup_insert_ne, Hfs.
  - simpl. by repeat split.
Qed.

(** With no fault of the system, the log file of the run starts afresh: its
    first line is the line that marks the beginning of the backup, and
    nothing of the former log is left in it. *)
Theorem run_log_starts_afresh (w : World) :
  no_faults E →
  ∃ t1 t2 rest,
    fs (performBackup E G w).2 !! logFilePath E G
    = Some (formatHMS t1 +:+ " " +:+ ("Beginning backup on " +:+ formatDateTime t2)
            +:+ nl +:+ rest).
Proof.
  intros Hnf. rewrite performBackup_unfold. unfold orReturn.
  destruct (quiet_rotateLogFiles E G (afterBanner E w)) as (r & w1 & Hrun & _).
  pose proof (rotateLogFiles_no_faults E G (afterBanner E w) Hnf) as Hno.
  rewrite Hrun in Hno. simpl in Hno. injection Hno as ->.
  rewrite (bind_val _ _ _ _ _ Hrun).
  destruct (Hnf (logFilePath E G)) as (_ & _ & Hcreate & _).
  assert (osCreate E (logFilePath E G) w1
          = (Val (inl (logFilePath E G)),
             set_fs (insert (logFilePath E G) EmptyString) w1)) as Hcr
    by (unfold osCreate; by rewrite Hcreate).
  rewrite (bind_val _ _ _ _ _ Hcr).
  set (w2 := set_fs _ w1). unfold runPhases.
  unfold bind at 1, timeNow at 1. cbv beta iota.
  unfold bind at 1, timeNow at 1. cbv beta iota.
  match goal with
  | |- context [bind (logMessage E (Some ?l) ?m) ?k] =>
      set (line := m); set (rest := k);
      assert (∀ u, respects (grown l) (rest u)) as Hrest
  end.
  { intros u. subst rest. cbv beta. autounfold with log_sinks program_steps.
    respects_with (grown_refl (logFilePath E G)) (grown_trans (logFilePath E G)) fail
      ltac:(grown_leaf). }
  pose proof (logFMessage_Some_fs Stdout (logFilePath E G) line
                (set_ticks S (set_ticks S w2))) as Hfs.
  destruct (logFMessage_run E Stdout (Some (logFilePath E G)) line
              (set_ticks S (set_ticks S w2))) as (w3 & Hrun3 & _).
  unfold logMessage. rewrite (bind_val _ _ _ _ _ Hrun3). rewrite Hrun3 in Hfs.
  simpl in Hfs. rewrite lookup_insert_eq in Hfs. simpl in Hfs.
  destruct (Hrest tt w3) as [[suffix Hgrow] Hsome].
  rewrite Hfs, lookup_insert_eq in Hgrow, Hsome. simpl in Hgrow.
  destruct (Hsome ltac:(by eexists)) as [content Hcontent].
  rewrite Hcontent in *. simpl in Hgrow. subst content.
  eexists _, _, suffix. f_equal. subst line.
  rewrite !append_assoc. reflexivity.
Qed.

(** A run changes no file but its log, generation 1 of it, which is
    written at every depth, and the generations 2 to [N-1], and takes or
    releases no lock. *)
Theorem performBackup_touches_only_logs (w : World) (p : string) :
  depth_in_range G →
  p ≠ logFilePath E G →
  p ≠ genPath (logFileRoot E G) 1 →
  (∀ i : nat, 2 ≤ i → (Z.of_nat i ≤ globalLogFileCount G - 1)%Z →
              p ≠ genPath (logFileRoot E G) (Z.of_nat i)) →
  fs (performBackup E G w).2 !! p = fs w !! p
  ∧ held (performBackup E G w).2 = held w.
Proof.
  intros HN Hlog Hp1 Hp. split; [|apply performBackup_same_held].
  rewrite performBackup_unfold. unfold orReturn.
  pose proof (rotateLogFiles_frame E G (afterBanner E w) p HN Hp1 Hp) as Hrot.
  destruct (quiet_rotateLogFiles E G (afterBanner E w)) as (r & w1 & Hrun & _).
  rewrite Hrun in Hrot. simpl in Hrot.
  rewrite (bind_val _ _ _ _ _ Hrun).
  destruct r as [e|]; [done|].
  unfold bind at 1, osCreate.
  destruct (createFault E (logFilePath E G)) as [e|].
  - pose proof (logFMessage_None_frame E Stderr ("Error: " +:+ e) w1) as (Hfs & _).
    destruct (quiet_logError E None ("Error: " +:+ e) w1) as ([] & w2 & Hrun2 & _).
    unfold logError in *. rewrite (bind_val _ _ _ _ _ Hrun2).
    rewrite Hrun2 in Hfs. simpl in *. by rewrite Hfs.
  - pose proof (runPhases_same_file (logFilePath E G) p Hlog
                  (set_fs (insert (logFilePath E G) EmptyString) w1)) as Hrun3.
    unfold same_file in Hrun3. rewrite Hrun3. simpl.
    by rewrite lookup_insert_ne.
Qed.

Lemma performBackup_keeps_previous_log (w : World) (B : string) :
  depth_in_range G → no_faults E →
  fs w !! logFileRoot E G = Some B →
  logFileRoot E G +:+ ".1.gz" ≠ logFilePath E G →
  fs (performBackup E G w).2 !! (logFileRoot E G +:+ ".1.gz")
  = Some (gzipBytes E (logFileRoot E G +:+ ".1.gz") B).
Proof.
  intros HN Hnf HB Hne. rewrite performBackup_unfold. unfold orReturn.
  destruct (Hnf (logFileRoot E G)) as (_ & Ho & _ & Hk & _).
  destruct (Hnf (logFileRoot E G +:+ ".1.gz")) as (_ & _ & Hc & _ & Hcl).
  destruct (Hnf (logFilePath E G)) as (_ & _ & Hcreate & _).
  pose proof (rotateLogFiles_cases E G (afterBanner E w) HN) as Hrot. cbv zeta in Hrot.
  change (fs (afterBanner E w)) with (fs w) in Hrot.
  rewrite HB, Ho, Hc, Hk in Hrot. unfold flushed in Hrot. rewrite Hcl in Hrot.
  destruct Hrot as [Hres Hfs].
  destruct (rotateLogFiles E G (afterBanner E w)) as [r w1] eqn:Hrun.
  simpl in Hres, Hfs. subst r.
  rewrite (bind_val _ _ _ _ _ Hrun).
  unfold bind at 1, osCreate. rewrite Hcreate.
  pose proof (runPhases_same_file (logFilePath E G) (logFileRoot E G +:+ ".1.gz") Hne
                (set_fs (insert (logFilePath E G) EmptyString) w1)) as Hsame.
  unfold same_file in Hsame. rewrite Hsame. simpl.
  rewrite lookup_insert_ne by done. rewrite Hfs. apply lookup_insert_eq.
Qed.

(** The log of the previous run survives the run, compressed: when the lock
    is free and the system has no fault, then however the run ends,
    generation 1 holds afterwards the gzip stream of what the log held
    before (the names of generation 1, of the new log and of the lock file
    being different). *)
Theorem previous_log_survives_the_run (w : World) (B : string) :
  depth_in_range G → no_faults E →
  lockFault E (lockfile E G) = None → lockfile E G ∉ held w →
  fs w !! logFileRoot E G = Some B →
  logFileRoot E G +:+ ".1.gz" ≠ logFilePath E G →
  logFileRoot E G +:+ ".1.gz" ≠ lockfile E G →
  fs (obtainLock E G w).2 !! (logFileRoot E G +:+ ".1.gz")
  = Some (gzipBytes E (logFileRoot E G +:+ ".1.gz") B).
Proof.
  intros HN Hnf Hfault Hfree HB Hne Hlock.
  rewrite obtainLock_locked by done.
  assert (fs (afterTryLock E G w) !! logFileRoot E G = Some B) as HB1.
  { unfold afterTryLock. simpl.
    destruct (fs w !! lockfile E G) eqn:Hl; [done|].
    rewrite lookup_insert_ne; [done|]. intros Heq. congruence. }
  pose proof (performBackup_keeps_previous_log (afterTryLock E G w) B HN Hnf HB1 Hne)
    as Hkept.
  unfold defer, bind, osRemove, Unlock, modify.
  destruct (performBackup E G (afterTryLock E G w)) as [[[e|]|msg] w2];
    simpl in *; by rewrite lookup_delete_ne.
Qed.

End Files.

Lemma engine_output_reaches_only_the_log_witness :
  let E := Demo.env None in
  let G := Demo.globals true true true Demo.threeBackups in
  events (runCommand E G "/log/job.log" ["check"] Demo.world).2
  = [EvExec (invocation G ["check"])].
Proof.
  intros E G.
  pose proof (engine_output_reaches_only_the_log E G "/log/job.log" ["check"]
                Demo.world eq_refl) as [H _].
  exact (proj1 (proj2 H)).
Defined.

Lemma run_log_starts_afresh_witness :
  ∃ t1 t2 rest,
    fs (performBackup (Demo.env None) (Demo.globals true true true Demo.threeBackups)
          Demo.world).2 !! "/log/job.log"
    = Some (formatHMS t1 +:+ " " +:+ ("Beginning backup on " +:+ formatDateTime t2)
            +:+ nl +:+ rest).
Proof.
  apply (run_log_starts_afresh (Demo.env None)
           (Demo.globals true true true Demo.threeBackups) Demo.world).
  intros p. repeat split.
Defined.

Lemma performBackup_touches_only_logs_witness :
  let E := Demo.env None in
  let G := Demo.globals true true true Demo.threeBackups in
  fs (performBackup E G (afterTryLock E G Demo.world)).2 !! "/lock/job.lock" = Some EmptyString.
Proof.
  intros E G.
  apply (proj1 (performBackup_touches_only_logs E G (afterTryLock E G Demo.world)
                  "/lock/job.lock"
                  ltac:(unfold depth_in_range; simpl; lia)
                  ltac:(discriminate) ltac:(discriminate)
                  ltac:(intros i _ _ H; vm_compute in H; discriminate))).
Defined.


(** ** The commands of a run *)

Section Commands.

Variable E : Env.
Variable G : Globals.

Lemma plan_allowed : Forall (λ c, allowed_call G (invocation G c)) (plan G).
Proof.
  unfold plan. repeat apply Forall_app_2.
  - destruct (cmdBackup G) eqn:Hb; [|constructor].
    apply Forall_app_2; apply Forall_fmap, Forall_true; intros b;
      (split; [done|]); (split; [done|]); eexists _, _; (split; [reflexivity|]); auto.
  - destruct (cmdPrune G) eqn:Hp; [|constructor].
    apply Forall_fmap, Forall_true. intros p.
    split; [done|]. split; [done|]. eexists _, _. split; [reflexivity|]. auto.
  - destruct (cmdCheck G) eqn:Hc; [|constructor].
    apply Forall_fmap, Forall_true. intros c.
    split; [done|]. split; [done|]. eexists _, _. split; [reflexivity|]. auto 6.
Qed.

(** A run calls nothing but the configured engine, in the directory of the
    repository, with one of the sub-commands backup, copy, prune and check,
    and only of a phase that is selected (copy goes with the backup phase). *)
Theorem only_selected_subcommands (w : World) :
  ∃ calls, invs (performBackup E G w).2 = invs w ++ calls
           ∧ Forall (allowed_call G) calls.
Proof.
  destruct (performBackup_cases E G w) as [(e & _ & Hinv & _)|[Hinv _]].
  - exists []. rewrite Hinv, app_nil_r. split; [done|constructor].
  - destruct (failFast_prefix E G (invs w) (reachable G)) as (n & _ & Hcalls & _).
    eexists. split; [by rewrite Hinv, Hcalls|].
    apply Forall_fmap. rewrite reachable_prefix, take_take.
    apply Forall_take. apply plan_allowed.
Qed.

Lemma failFast_setDebug b h cmds :
  failFast E (setDebug b G) h cmds = failFast E G h cmds.
Proof.
  revert h. induction cmds as [|c cmds IH]; intros h; simpl; [done|].
  change (invocation (setDebug b G) c) with (invocation G c).
  destruct (external E h (invocation G c)).2; [done|apply IH].
Qed.

(** The debug flag changes neither the calls of a run nor its outcome (on a
    system without faults and with the check loop within [pruneInfo]): it
    only adds lines to the log, the console and [mailBody]. *)
Theorem debug_changes_no_call (b : bool) (w w' : World) :
  no_faults E → checkOverrun G = false → invs w' = invs w →
  (performBackup E (setDebug b G) w').1 = (performBackup E G w).1
  ∧ invs (performBackup E (setDebug b G) w').2 = invs (performBackup E G w).2.
Proof.
  intros Hnf Hover Hinv.
  destruct (performBackup_exact E G w Hnf Hover) as [-> ->].
  destruct (performBackup_exact E (setDebug b G) w' Hnf Hover) as [-> ->].
  change (plan (setDebug b G)) with (plan G).
  by rewrite failFast_setDebug, Hinv.
Qed.

End Commands.

Lemma debug_changes_no_call_witness :
  let E := Demo.env (Some 1) in
  let G := Demo.globals true true true Demo.threeBackups in
  (performBackup E (setDebug true G) Demo.world).1 = (performBackup E G Demo.world).1
  ∧ invs (performBackup E (setDebug true G) Demo.world).2
    = invs (performBackup E G Demo.world).2.
Proof.
  intros E G.
  apply (debug_changes_no_call E G true Demo.world Demo.world).
  - intros p. repeat split.
  - reflexivity.
  - reflexivity.
Defined.

(** ** The keep policy *)

Lemma plain_no_space t : plain t = true → strings.contains space t = false.
Proof.
  induction t as [|a t IH]; simpl; [done|].
  intros [Ha Ht]%andb_true_iff. rewrite IH by done.
  unfold is_white in Ha. apply negb_true_iff in Ha.
  repeat (apply orb_false_iff in Ha as [Ha ?]). unfold space. by rewrite Ha.
Qed.

Lemma whitespace_tokens_go_plain t cur rest :
  plain t = true →
  whitespace_tokens_go cur (t +:+ rest) = whitespace_tokens_go (cur +:+ t) rest.
Proof.
  revert cur. induction t as [|a t IH]; intros cur Ht.
  - by rewrite append_nil_r.
  - simpl in Ht. apply andb_true_iff in Ht as [Ha Ht]. apply negb_true_iff in Ha.
    change (String a t +:+ rest) with (String a (t +:+ rest)).
    cbn [whitespace_tokens_go]. rewrite Ha, IH by done.
    by rewrite append_assoc.
Qed.

Lemma whitespace_tokens_Join ts :
  Forall (λ t, t ≠ EmptyString ∧ plain t = true) ts →
  whitespace_tokens (strings.Join ts " ") = ts.
Proof.
  unfold whitespace_tokens. induction ts as [|t ts IH]; [done|].
  intros Hall. inversion Hall as [|?? [Hne Hplain] Hts]; subst.
  destruct ts as [|t' ts].
  - cbn [strings.Join]. rewrite <- (append_nil_r t) at 1.
    rewrite whitespace_tokens_go_plain by done. simpl. by destruct t.
  - rewrite Join_cons by done.
    rewrite whitespace_tokens_go_plain by done.
    change (" " +:+ ?x) with (String " " x).
    cbn [whitespace_tokens_go String.append]. simpl is_white. cbv iota.
    rewrite IH by done. by destruct t.
Qed.

(** For a keep policy made of tokens without white space, none of them
    empty, with one space between them, the arguments passed after the
    storage are exactly the tokens, which are also its tokens on white
    space. *)
Theorem keep_policy_tokens (p : gmap string string) (ts : list string) :
  ts ≠ [] →
  Forall (λ t, t ≠ EmptyString ∧ plain t = true) ts →
  mapGet p "keep" = strings.Join ts " " →
  pruneArgs p = ["prune"; "-all"; "-storage"; mapGet p "storage"] ++ ts
  ∧ whitespace_tokens (mapGet p "keep") = ts.
Proof.
  intros Hne Hall Hkeep. unfold pruneArgs. rewrite Hkeep. split.
  - f_equal. apply (Split_of_Join ts space Hne).
    eapply Forall_impl; [exact Hall|]. intros t [_ Ht]. by apply plain_no_space.
  - by apply whitespace_tokens_Join.
Qed.

(** An operation without the key [keep], or with an empty policy, still
    passes one argument after the storage: the empty string. *)
Theorem missing_keep_passes_empty_argument (p : gmap string string) :
  p !! "keep" = None ∨ p !! "keep" = Some EmptyString →
  pruneArgs p = ["prune"; "-all"; "-storage"; mapGet p "storage"; EmptyString].
Proof.
  intros Hkeep. unfold pruneArgs.
  assert (mapGet p "keep" = EmptyString) as ->
    by (unfold mapGet; by destruct Hkeep as [-> | ->]).
  reflexivity.
Qed.

Lemma keep_policy_tokens_witness :
  pruneArgs {[ "storage" := "A"; "keep" := "-keep 0:365 -keep 7:30" ]}
  = ["prune"; "-all"; "-storage"; "A"; "-keep"; "0:365"; "-keep"; "7:30"].
Proof.
  apply (proj1 (keep_policy_tokens
                  {[ "storage" := "A"; "keep" := "-keep 0:365 -keep 7:30" ]}
                  ["-keep"; "0:365"; "-keep"; "7:30"]
                  ltac:(discriminate)
                  ltac:(repeat constructor; discriminate)
                  eq_refl)).
Defined.

Lemma missing_keep_passes_empty_argument_witness :
  pruneArgs {[ "storage" := "A" ]} = ["prune"; "-all"; "-storage"; "A"; EmptyString].
Proof.
  exact (missing_keep_passes_empty_argument {[ "storage" := "A" ]}
           (or_introl eq_refl)).
Defined.

Lemma previous_log_survives_the_run_witness :
  let E := Demo.env (Some 1) in
  let G := Demo.globals true true true Demo.threeBackups in
  fs (obtainLock E G Demo.world).2 !! "/log/job.log.1.gz" = Some "GZold".
Proof.
  intros E G.
  apply (previous_log_survives_the_run E G Demo.world "old").
  - unfold depth_in_range. simpl. lia.
  - intros p. repeat split.
  - reflexivity.
  - apply not_elem_of_empty.
  - vm_compute. reflexivity.
  - discriminate.
  - discriminate.
Defined.
